(** * To-Do Reminder (MVP): the task engine of [src/App.tsx]

    A shallow embedding of the task model, the store, the mutators, the
    reminder scheduler, the notification gateway and the view projection of
    [App.tsx], followed by the properties of the specification.

    Conventions of the embedding.
    - A JavaScript string is a [string]; each character stands for one code
      unit below 256.
    - An optional field ([notes?], [due?], [notified?]) is an [option]:
      [None] reads as [undefined].
    - A time value (milliseconds since the epoch) is a [Z]; [NaN], the time
      value of an Invalid Date, is [None] of [option Z].
    - What the browser provides and the repository does not define ([Date],
      [JSON], [Notification], [localStorage]) is a parameter: the record
      [Platform] for the pure functions, the record [Window] for the mutable
      notification surface, a [gmap] for [localStorage]. *)

From Stdlib Require Import ZArith Ascii String List Sorting.Sorted Permutation.
From stdpp Require Import base tactics option list strings gmap pretty.

Local Open Scope string_scope.
Local Open Scope Z_scope.

Set Warnings "-register-all".

(** ** Strings *)

Module Str.

(** [!s] is true exactly for the empty string. *)
Definition truthy (s : string) : bool :=
  match s with EmptyString => false | String _ _ => true end.

(** [a || b] on strings. *)
Definition or_else (a b : string) : string := if truthy a then a else b.

(** [s || undefined]. *)
Definition or_undefined (s : string) : option string :=
  if truthy s then Some s else None.

(** [(x as string) || ''] for a value that may be [null]. *)
Definition of_nullable (x : option string) : string :=
  match x with Some s => s | None => EmptyString end.

(** WhiteSpace and LineTerminator code units below 256:
    TAB, LF, VT, FF, CR, SP, NBSP. *)
Definition is_whitespace (c : ascii) : bool :=
  let n := nat_of_ascii c in
  ((9 <=? n)%nat && (n <=? 13)%nat) || (n =? 32)%nat || (n =? 160)%nat.

Fixpoint trimStart (s : string) : string :=
  match s with
  | EmptyString => EmptyString
  | String c r => if is_whitespace c then trimStart r else s
  end.

Fixpoint trimEnd (s : string) : string :=
  match s with
  | EmptyString => EmptyString
  | String c r =>
      match trimEnd r with
      | EmptyString => if is_whitespace c then EmptyString else String c EmptyString
      | r' => String c r'
      end
  end.

Definition trim (s : string) : string := trimEnd (trimStart s).

(** Lower-casing of the code units below 256: A-Z and the Latin-1 capitals
    (0xC0-0xDE without the multiplication sign 0xD7) move up by 32. *)
Definition lower_char (c : ascii) : ascii :=
  let n := nat_of_ascii c in
  if ((65 <=? n)%nat && (n <=? 90)%nat)
     || ((192 <=? n)%nat && (n <=? 222)%nat && negb (n =? 215)%nat)
  then ascii_of_nat (n + 32) else c.

Fixpoint toLowerCase (s : string) : string :=
  match s with
  | EmptyString => EmptyString
  | String c r => String (lower_char c) (toLowerCase r)
  end.

Fixpoint startsWith (p s : string) : bool :=
  match p, s with
  | EmptyString, _ => true
  | String a p', String b s' => if Ascii.eqb a b then startsWith p' s' else false
  | String _ _, EmptyString => false
  end.

(** [s.includes(p)]. *)
Fixpoint includes (s p : string) : bool :=
  startsWith p s ||
  match s with
  | EmptyString => false
  | String _ s' => includes s' p
  end.

End Str.

(** ** Data model *)

Record Task := mkTask {
  id : string;
  title : string;
  notes : option string;
  due : option string;          (* ISO *)
  completed : bool;
  notified : option bool;
  createdAt : string
}.

(** [Partial<Task>]: a key may be absent ([None]); the key of an optional
    field may also be present and hold [undefined] ([Some None]), as
    [EditInline.onSave] writes for [notes] and [due]. *)
Record PartialTask := mkPartial {
  p_id : option string;
  p_title : option string;
  p_notes : option (option string);
  p_due : option (option string);
  p_completed : option bool;
  p_notified : option (option bool);
  p_createdAt : option string
}.

(** [{ ...t, ...updates }] *)
Definition spread (t : Task) (u : PartialTask) : Task :=
  {| id := default (id t) (p_id u);
     title := default (title t) (p_title u);
     notes := default (notes t) (p_notes u);
     due := default (due t) (p_due u);
     completed := default (completed t) (p_completed u);
     notified := default (notified t) (p_notified u);
     createdAt := default (createdAt t) (p_createdAt u) |}.

(** Truthiness of the two optional fields the code tests. *)
Definition has_due (t : Task) : bool :=
  match due t with Some s => Str.truthy s | None => false end.

Definition is_notified (t : Task) : bool :=
  match notified t with Some b => b | None => false end.

Definition set_notified (t : Task) : Task :=
  {| id := id t; title := title t; notes := notes t; due := due t;
     completed := completed t; notified := Some true; createdAt := createdAt t |}.

Definition set_completed (t : Task) (b : bool) : Task :=
  {| id := id t; title := title t; notes := notes t; due := due t;
     completed := b; notified := notified t; createdAt := createdAt t |}.

(** What an event handler or a state updater does to the task state:
    it leaves it alone ([setTasks] not called, or the updater returned the
    very array it was given, on which React skips the render and its
    effects), it throws before any update, or it installs a new array. *)
Inductive Outcome :=
| NoUpdate
| Throws
| Update (next : list Task).

Definition snapshot_after (prev : list Task) (o : Outcome) : list Task :=
  match o with Update next => next | _ => prev end.

(** ** JavaScript values that [JSON] reads and writes *)

Inductive json :=
| JNull
| JBool (b : bool)
| JNum (n : Z)
| JStr (s : string)
| JArr (items : list json)
| JObj (props : list (string * json)).

(** A plain object: its own enumerable properties, in insertion order. *)
Definition JSObject := list (string * json).

(** ** The platform *)

(** The pure functions of the runtime that [App.tsx] calls.
    - [Date_parse s] is [new Date(s).getTime()], [None] for Invalid Date.
    - [Date_toISOString ts] is [toISOString()] of a valid date.
    - [Date_localDate ts] is [(getFullYear(), getMonth(), getDate())] of a
      valid date, in the local time zone.
    - [JSON_parse s] is [None] when [JSON.parse] throws a SyntaxError. *)
Record Platform := {
  Date_parse : string -> option Z;
  Date_toISOString : Z -> string;
  Date_localDate : Z -> Z * Z * Z;
  JSON_stringify : json -> string;
  JSON_parse : string -> option json
}.

(** [localStorage]. *)
Abbreviation Storage := (gmap string string).

Definition STORAGE_KEY : string := "todo_mvp_tasks_v1".

Module JS.

(** Property lookup on a plain object. *)
Fixpoint get (k : string) (o : JSObject) : option json :=
  match o with
  | [] => None
  | (k', v) :: o' => if String.eqb k k' then Some v else get k o'
  end.

Fixpoint chars_from (i : nat) (s : string) : JSObject :=
  match s with
  | EmptyString => []
  | String c r => (pretty i, JStr (String c EmptyString)) :: chars_from (S i) r
  end.

Fixpoint items_from (i : nat) (l : list json) : JSObject :=
  match l with
  | [] => []
  | v :: r => (pretty i, v) :: items_from (S i) r
  end.

(** [{ ...v }]: the own enumerable properties of [v]; primitives other
    than strings have none. *)
Definition spread_copy (v : json) : JSObject :=
  match v with
  | JObj props => props
  | JArr items => items_from 0 items
  | JStr s => chars_from 0 s
  | JNull | JBool _ | JNum _ => []
  end.

Definition opt_prop {A} (k : string) (f : A -> json) (x : option A) : JSObject :=
  match x with Some a => [(k, f a)] | None => [] end.

End JS.

(** The object a [Task] is, as [JSON.stringify] sees it: keys in the order
    [addTask] writes them, a key holding [undefined] left out. *)
Definition object_of_task (t : Task) : JSObject :=
  ([("id", JStr (id t)); ("title", JStr (title t))]
   ++ JS.opt_prop "notes" JStr (notes t)
   ++ JS.opt_prop "due" JStr (due t)
   ++ [("completed", JBool (completed t))]
   ++ JS.opt_prop "notified" JBool (notified t)
   ++ [("createdAt", JStr (createdAt t))])%list.

(** Reading an object through the type [Task]: [None] when a field does not
    hold a value of its declared type. *)
Definition get_string (k : string) (o : JSObject) : option string :=
  match JS.get k o with Some (JStr s) => Some s | _ => None end.

Definition get_bool (k : string) (o : JSObject) : option bool :=
  match JS.get k o with Some (JBool b) => Some b | _ => None end.

Definition get_opt_string (k : string) (o : JSObject) : option (option string) :=
  match JS.get k o with
  | None => Some None
  | Some (JStr s) => Some (Some s)
  | Some _ => None
  end.

Definition get_opt_bool (k : string) (o : JSObject) : option (option bool) :=
  match JS.get k o with
  | None => Some None
  | Some (JBool b) => Some (Some b)
  | Some _ => None
  end.

Definition task_of_object (o : JSObject) : option Task :=
  i ← get_string "id" o;
  ti ← get_string "title" o;
  n ← get_opt_string "notes" o;
  d ← get_opt_string "due" o;
  c ← get_bool "completed" o;
  nf ← get_opt_bool "notified" o;
  ca ← get_string "createdAt" o;
  Some (mkTask i ti n d c nf ca).

(** ** Task Store *)

Section Store.
Context (P : Platform).

(** [JSON.stringify(tasks)] *)
Definition stringify_tasks (tasks : list Task) : string :=
  JSON_stringify P (JArr (map (fun t => JObj (object_of_task t)) tasks)).

Definition saveTasks (tasks : list Task) (ls : Storage) : Storage :=
  <[STORAGE_KEY := stringify_tasks tasks]> ls.

(** Every failure inside the [try] ([JSON.parse] throwing, [parsed.map]
    not being a function) ends in the [catch] and gives [[]]. *)
Definition loadTasks (ls : Storage) : list JSObject :=
  match ls !! STORAGE_KEY with
  | None => []
  | Some raw =>
      if negb (Str.truthy raw) then []
      else match JSON_parse P raw with
           | Some (JArr parsed) => map JS.spread_copy parsed
           | Some _ => []
           | None => []
           end
  end.

End Store.

(** ** Notification Gateway *)

Inductive NotificationPermission := Pdefault | Pgranted | Pdenied.

#[global] Instance NotificationPermission_eq_dec : EqDecision NotificationPermission.
Proof. solve_decision. Defined.

(** The arguments of one [new Notification(title, options)]. *)
Record Notification := {
  n_title : string;
  n_body : string;
  n_tag : string;
  n_requireInteraction : bool
}.

(** The notification surface of [window].
    - [Notification_in_window]: ['Notification' in window].
    - [permission]: [Notification.permission].
    - [requestPermission]: what the next [Notification.requestPermission()]
      resolves to, [None] when it rejects.
    - [constructor_outcomes]: whether the coming calls of the constructor
      return ([true]) or throw ([false]), in call order; past the end of the
      list the constructor returns.
    - [shown]: the notifications raised so far, latest first. *)
Record Window := mkWindow {
  Notification_in_window : bool;
  permission : NotificationPermission;
  requestPermission : option NotificationPermission;
  constructor_outcomes : list bool;
  shown : list Notification
}.

Definition set_permission (w : Window) (p : NotificationPermission) : Window :=
  mkWindow (Notification_in_window w) p (requestPermission w)
           (constructor_outcomes w) (shown w).

Definition ensureNotificationPermission (w : Window) : NotificationPermission * Window :=
  if negb (Notification_in_window w) then (Pdenied, w)
  else if decide (permission w = Pgranted) then (Pgranted, w)
  else if decide (permission w <> Pdenied) then
    match requestPermission w with
    | Some p => (p, set_permission w p)
    | None => (Pdenied, w)
    end
  else (permission w, w).

(** [new Notification(...)]: consumes one constructor outcome. *)
Definition new_Notification (n : Notification) (w : Window) : bool * Window :=
  match constructor_outcomes w with
  | false :: rest =>
      (false, mkWindow (Notification_in_window w) (permission w)
                       (requestPermission w) rest (shown w))
  | true :: rest =>
      (true, mkWindow (Notification_in_window w) (permission w)
                      (requestPermission w) rest (n :: shown w))
  | [] =>
      (true, mkWindow (Notification_in_window w) (permission w)
                      (requestPermission w) [] (n :: shown w))
  end.

Definition notifyTask (task : Task) (w : Window) : bool * Window :=
  if negb (Notification_in_window w) then (false, w)
  else if decide (permission w <> Pgranted) then (false, w)
  else
    new_Notification
      {| n_title := "Reminder: " ++ title task;
         n_body := Str.or_else (default "" (notes task)) "Tap to open and mark complete";
         n_tag := id task;
         n_requireInteraction := true |} w.

(** ** Task Model and Mutators *)

(** The fields of the add form as [FormData.get] returns them ([None] is
    [null]). *)
Record FormData := {
  fd_title : option string;
  fd_notes : option string;
  fd_due : option string
}.

(** The clock and random readings one [addTask] makes: [Date.now()] and
    [Math.random().toString(36).slice(2, 8)] inside [uid], then [new Date()]
    for [createdAt]. *)
Record Readings := {
  uid_now : Z;
  uid_random : string;
  created_now : Z
}.

Definition uid (now : Z) (rnd : string) : string := pretty now ++ "_" ++ rnd.

(** The state of the inline edit form: [due] is [undefined] or a [Date],
    whose time value may be [NaN]. *)
Record EditForm := {
  e_title : string;
  e_notes : string;
  e_due : option (option Z)
}.

Section Mutators.
Context (P : Platform).

(** [new Date(s).toISOString()]: a RangeError ([None]) on an Invalid Date. *)
Definition toISOString_of_string (s : string) : option string :=
  Date_toISOString P <$> Date_parse P s.

Definition addTask (fd : FormData) (r : Readings) (prev : list Task) : Outcome :=
  let title := Str.trim (Str.of_nullable (fd_title fd)) in
  let notes := Str.trim (Str.of_nullable (fd_notes fd)) in
  let dueStr := Str.trim (Str.of_nullable (fd_due fd)) in
  if negb (Str.truthy title) then NoUpdate
  else
    let dueISO :=
      if Str.truthy dueStr then Some <$> toISOString_of_string dueStr
      else Some None in
    match dueISO with
    | None => Throws
    | Some dueISO =>
        let item :=
          {| id := uid (uid_now r) (uid_random r);
             title := title;
             notes := Str.or_undefined notes;
             due := dueISO;
             completed := false;
             notified := Some false;
             createdAt := Date_toISOString P (created_now r) |} in
        Update (item :: prev)
    end.

Definition toggleComplete (i : string) (prev : list Task) : Outcome :=
  Update (map (fun t => if String.eqb (id t) i
                        then set_completed t (negb (completed t)) else t) prev).

Definition removeTask (i : string) (prev : list Task) : Outcome :=
  Update (List.filter (fun t => negb (String.eqb (id t) i)) prev).

Definition saveEdit (i : string) (updates : PartialTask) (prev : list Task) : Outcome :=
  Update (map (fun t => if String.eqb (id t) i then spread t updates else t) prev).

(** [resetAll]: [confirmed] is the answer to the [confirm] dialog. *)
Definition resetAll (confirmed : bool) : Outcome :=
  if confirmed then Update [] else NoUpdate.

(** The initial state of [EditInline] for the task [t]. *)
Definition EditInline_init (t : Task) : EditForm :=
  {| e_title := title t;
     e_notes := default "" (notes t);
     e_due := match due t with
              | Some s => if Str.truthy s then Some (Date_parse P s) else None
              | None => None
              end |}.

(** The update record [onSave] builds; [None] when [toISOString] throws. *)
Definition onSave_updates (t : Task) (f : EditForm) : option PartialTask :=
  let dueISO :=
    match e_due f with
    | None => Some None
    | Some (Some ts) => Some (Some (Date_toISOString P ts))
    | Some None => None
    end in
  d ← dueISO;
  Some {| p_id := None;
          p_title := Some (Str.or_else (Str.trim (e_title f)) (title t));
          p_notes := Some (Str.or_undefined (Str.trim (e_notes f)));
          p_due := Some d;
          p_completed := None;
          p_notified := Some (Some false);
          p_createdAt := None |}.

Definition onSave (t : Task) (f : EditForm) (prev : list Task) : Outcome :=
  match onSave_updates t f with
  | Some updates => saveEdit (id t) updates prev
  | None => Throws
  end.

End Mutators.

(** ** Reminder Scheduler *)

Section Scheduler.
Context (P : Platform).

(** The callback of [prev.map]: the task it returns, whether it set
    [changed], and the window after the dispatch it may have made.
    [dueTs <= now] is false when [dueTs] is [NaN]. *)
Definition tick_task (now : Z) (t : Task) (w : Window) : Task * bool * Window :=
  if negb (has_due t) || completed t || is_notified t then (t, false, w)
  else
    match Date_parse P (default "" (due t)) with
    | Some dueTs =>
        if dueTs <=? now then
          let (sent, w') := notifyTask t w in
          if sent then (set_notified t, true, w') else (t, false, w')
        else (t, false, w)
    | None => (t, false, w)
    end.

(** [prev.map(...)], left to right, with the [changed] flag. *)
Fixpoint tick_map (now : Z) (prev : list Task) (w : Window)
  : list Task * bool * Window :=
  match prev with
  | [] => ([], false, w)
  | t :: rest =>
      let '(t', c, w1) := tick_task now t w in
      let '(rest', c', w2) := tick_map now rest w1 in
      (t' :: rest', c || c', w2)
  end.

(** The updater the interval callback passes to [setTasks]:
    [changed ? next : prev]. *)
Definition tick (now : Z) (prev : list Task) (w : Window) : Outcome * Window :=
  let '(next, changed, w') := tick_map now prev w in
  (if changed then Update next else NoUpdate, w').

(** The window as it is when [prev.map] reaches index [i]. *)
Definition window_at (now : Z) (prev : list Task) (w : Window) (i : nat) : Window :=
  (tick_map now (take i prev) w).2.

(** A run of ticks; each tick reads the clock and meets the window in the
    state the environment has left it in. *)
Fixpoint run_ticks (ticks : list (Z * Window)) (prev : list Task) : list Task :=
  match ticks with
  | [] => prev
  | (now, w) :: rest => run_ticks rest (snapshot_after prev (tick now prev w).1)
  end.

(** Eligible, as the scheduler tests it. *)
Definition eligible (now : Z) (t : Task) : bool :=
  has_due t && negb (completed t) && negb (is_notified t) &&
  match Date_parse P (default "" (due t)) with
  | Some dueTs => dueTs <=? now
  | None => false
  end.

End Scheduler.

(** The application state: the task array held by
    [useState] and [localStorage]. *)
Record AppState := {
  tasks : list Task;
  localStorage : Storage
}.

(** [setTasks] with an outcome, followed by the effect
    [useEffect(() => saveTasks(tasks), [tasks])], which runs only when the
    array was replaced. *)
Definition commit (P : Platform) (st : AppState) (o : Outcome) : AppState :=
  match o with
  | Update next => {| tasks := next; localStorage := saveTasks P next (localStorage st) |}
  | NoUpdate | Throws => st
  end.

(** ** View Projector *)

Inductive Tab := today | all.
Inductive Filter := pending | completed_only | all_tasks.

(** [Array.prototype.sort(comparefn)]. A comparator result is a number,
    [None] for [NaN], which the sort reads as [+0]. The sort is stable; for
    a consistent comparator that fixes its result, which insertion from the
    right computes. *)
Section ArraySort.
Context {A : Type} (comparefn : A -> A -> option Z).

Definition sort_compare (x y : A) : Z := default 0 (comparefn x y).

Fixpoint sort_insert (x : A) (l : list A) : list A :=
  match l with
  | [] => [x]
  | y :: l' => if 0 <? sort_compare x y then y :: sort_insert x l' else x :: l
  end.

Fixpoint Array_sort (l : list A) : list A :=
  match l with
  | [] => []
  | x :: l' => sort_insert x (Array_sort l')
  end.
End ArraySort.

Section View.
Context (P : Platform).

(** [isToday(d)]: [d] is [undefined] ([None]) or a [Date] with a time
    value; [clock] is what [new Date()] reads. A getter of an Invalid Date
    returns [NaN], which [===] nothing. *)
Definition isToday (clock : Z) (d : option (option Z)) : bool :=
  match d with
  | None => false
  | Some None => false
  | Some (Some ts) =>
      let '(y, m, dd) := Date_localDate P ts in
      let '(y', m', dd') := Date_localDate P clock in
      (y =? y') && (m =? m') && (dd =? dd')
  end.

(** [t.due ? new Date(t.due) : undefined] *)
Definition due_date (t : Task) : option (option Z) :=
  if has_due t then Some (Date_parse P (default "" (due t))) else None.

Definition todayList (clock : Z) (tasks : list Task) : list Task :=
  List.filter (fun t => isToday clock (due_date t)) tasks.

(** The comparator of [visible]. *)
Definition by_due (a b : Task) : option Z :=
  if negb (has_due a) && negb (has_due b) then Some 0
  else if negb (has_due a) then Some 1
  else if negb (has_due b) then Some (-1)
  else
    match Date_parse P (default "" (due a)), Date_parse P (default "" (due b)) with
    | Some x, Some y => Some (x - y)
    | _, _ => None
    end.

(** [list] of [visible] as it stands before the sort; [clock] is the clock
    reading of the [todayList] it uses. *)
Definition selected (clock : Z) (tasks : list Task) (tab : Tab) (filter : Filter)
           (query : string) : list Task :=
  let list := match tab with today => todayList clock tasks | all => tasks end in
  let list := match filter with
              | pending => List.filter (fun t => negb (completed t)) list
              | _ => list
              end in
  let list := match filter with
              | completed_only => List.filter (fun t => completed t) list
              | _ => list
              end in
  if Str.truthy (Str.trim query)
  then List.filter (fun t => Str.includes (Str.toLowerCase (title t))
                                          (Str.toLowerCase query)) list
  else list.

Definition visible (clock : Z) (tasks : list Task) (tab : Tab) (filter : Filter)
           (query : string) : list Task :=
  Array_sort by_due (selected clock tasks tab filter query).

End View.

(** The result of the dispatch a tick attempts for the task at index [i]:
    [None] when it attempts none there. *)
Definition dispatch_result (P : Platform) (now : Z) (prev : list Task) (w : Window)
           (i : nat) : option bool :=
  match prev !! i with
  | Some t =>
      if eligible P now t then Some (notifyTask t (window_at P now prev w i)).1
      else None
  | None => None
  end.

(** Whether the dispatch for index [i] fails in every tick of a run. *)
Fixpoint always_fails (P : Platform) (i : nat) (ticks : list (Z * Window))
         (prev : list Task) : bool :=
  match ticks with
  | [] => true
  | (now, w) :: rest =>
      bool_decide (dispatch_result P now prev w i = Some false)
      && always_fails P i rest (snapshot_after prev (tick P now prev w).1)
  end.

(** ** A concrete platform

    A runtime to evaluate the definitions on: the local time zone is UTC,
    [Date] reads the ISO forms [YYYY-MM-DD], [YYYY-MM-DDTHH:mm],
    [YYYY-MM-DDTHH:mm:ss] and [YYYY-MM-DDTHH:mm:ss.sssZ] and holds every other
    string for an Invalid Date, and [JSON] knows integers as its only
    numbers. *)

Module Calendar.

(** Days since 1970-01-01 of a proleptic Gregorian date ([m] in 1..12). *)
Definition days_from_civil (y m d : Z) : Z :=
  let y' := if m <=? 2 then y - 1 else y in
  let era := y' / 400 in
  let yoe := y' - era * 400 in
  let doy := (153 * (if 2 <? m then m - 3 else m + 9) + 2) / 5 + d - 1 in
  let doe := yoe * 365 + yoe / 4 - yoe / 100 + doy in
  era * 146097 + doe - 719468.

Definition civil_from_days (z : Z) : Z * Z * Z :=
  let z := z + 719468 in
  let era := z / 146097 in
  let doe := z - era * 146097 in
  let yoe := (doe - doe / 1460 + doe / 36524 - doe / 146096) / 365 in
  let doy := doe - (365 * yoe + yoe / 4 - yoe / 100) in
  let mp := (5 * doy + 2) / 153 in
  let d := doy - (153 * mp + 2) / 5 + 1 in
  let m := if mp <? 10 then mp + 3 else mp - 9 in
  ((yoe + era * 400) + (if m <=? 2 then 1 else 0), m, d).

Definition is_leap (y : Z) : bool :=
  ((y mod 4 =? 0) && negb (y mod 100 =? 0)) || (y mod 400 =? 0).

Definition days_in_month (y m : Z) : Z :=
  if m =? 2 then (if is_leap y then 29 else 28)
  else if (m =? 4) || (m =? 6) || (m =? 9) || (m =? 11) then 30 else 31.

Definition ms_per_day : Z := 86400000.

Definition make_time (y m d hh mi ss ms : Z) : option Z :=
  if (1 <=? m) && (m <=? 12) && (1 <=? d) && (d <=? days_in_month y m)
     && (hh <=? 23) && (mi <=? 59) && (ss <=? 59)
  then Some (days_from_civil y m d * ms_per_day
             + hh * 3600000 + mi * 60000 + ss * 1000 + ms)
  else None.

Definition digit_of (c : ascii) : option Z :=
  let n := nat_of_ascii c in
  if (48 <=? n)%nat && (n <=? 57)%nat then Some (Z.of_nat n - 48) else None.

(** Reads exactly [n] decimal digits. *)
Fixpoint digits (n : nat) (acc : Z) (s : string) : option (Z * string) :=
  match n with
  | O => Some (acc, s)
  | S n' =>
      match s with
      | String c r =>
          match digit_of c with
          | Some d => digits n' (10 * acc + d) r
          | None => None
          end
      | EmptyString => None
      end
  end.

Definition expect (c : ascii) (s : string) : option string :=
  match s with
  | String c' r => if Ascii.eqb c c' then Some r else None
  | EmptyString => None
  end.

(** The time of day after the [T]: [HH:mm], then [:ss], [.sss] and [Z],
    each optional. *)
Definition parse_time (s : string) : option (Z * Z * Z * Z) :=
  '(hh, s) ← digits 2 0 s;
  s ← expect ":" s;
  '(mi, s) ← digits 2 0 s;
  let '(ss, s) := match expect ":" s ≫= digits 2 0 with
                  | Some r => r | None => (0, s) end in
  let '(ms, s) := match expect "." s ≫= digits 3 0 with
                  | Some r => r | None => (0, s) end in
  let s := match expect "Z" s with Some r => r | None => s end in
  match s with
  | EmptyString => Some (hh, mi, ss, ms)
  | String _ _ => None
  end.

Definition parse (s : string) : option Z :=
  '(y, s) ← digits 4 0 s;
  s ← expect "-" s;
  '(m, s) ← digits 2 0 s;
  s ← expect "-" s;
  '(d, s) ← digits 2 0 s;
  match s with
  | EmptyString => make_time y m d 0 0 0 0
  | String _ _ =>
      s ← expect "T" s;
      '(hh, mi, ss, ms) ← parse_time s;
      make_time y m d hh mi ss ms
  end.

Fixpoint zeros (n : nat) : string :=
  match n with
  | O => EmptyString
  | S n' => String "0" (zeros n')
  end.

(** [String(n).padStart(width, '0')] of the magnitude of [n]. *)
Definition dec (width : nat) (n : Z) : string :=
  let s := pretty (Z.abs n) in
  zeros (width - String.length s) ++ s.

(** [YYYY-MM-DDTHH:mm:ss.sssZ], the year with a sign and six digits when
    it lies outside 0..9999. *)
Definition toISOString (ts : Z) : string :=
  let '(y, m, d) := civil_from_days (ts / ms_per_day) in
  let r := ts mod ms_per_day in
  let year := if (0 <=? y) && (y <=? 9999) then dec 4 y
              else (if y <? 0 then "-" else "+") ++ dec 6 y in
  year ++ "-" ++ dec 2 m ++ "-" ++ dec 2 d
  ++ "T" ++ dec 2 (r / 3600000) ++ ":" ++ dec 2 (r / 60000 mod 60)
  ++ ":" ++ dec 2 (r / 1000 mod 60) ++ "." ++ dec 3 (r mod 1000) ++ "Z".

(** [(getFullYear(), getMonth(), getDate())]; months count from 0. *)
Definition localDate (ts : Z) : Z * Z * Z :=
  let '(y, m, d) := civil_from_days (ts / ms_per_day) in (y, m - 1, d).

End Calendar.

Module Json.

Definition dquote : ascii := ascii_of_nat 34.

(** [s] without the prefix [p], when it starts with it. *)
Fixpoint strip_prefix (p s : string) : option string :=
  match p, s with
  | EmptyString, _ => Some s
  | String a p', String b s' => if Ascii.eqb a b then strip_prefix p' s' else None
  | String _ _, EmptyString => None
  end.

Definition hex_digit (n : nat) : ascii :=
  ascii_of_nat (if (n <? 10)%nat then 48 + n else 87 + n).

(** QuoteJSONString, one code unit. *)
Definition escape_char (c : ascii) : string :=
  let n := nat_of_ascii c in
  if (n =? 34)%nat then String "\" (String dquote "")
  else if (n =? 92)%nat then "\\"
  else if (n =? 8)%nat then "\b"
  else if (n =? 12)%nat then "\f"
  else if (n =? 10)%nat then "\n"
  else if (n =? 13)%nat then "\r"
  else if (n =? 9)%nat then "\t"
  else if (n <? 32)%nat
       then "\u00" ++ String (hex_digit (n / 16)) (String (hex_digit (n mod 16)) "")
  else String c "".

Fixpoint escape (s : string) : string :=
  match s with
  | EmptyString => EmptyString
  | String c r => escape_char c ++ escape r
  end.

Definition quote (s : string) : string :=
  String dquote (escape s ++ String dquote "").

Fixpoint stringify (j : json) : string :=
  match j with
  | JNull => "null"
  | JBool true => "true"
  | JBool false => "false"
  | JNum n => pretty n
  | JStr s => quote s
  | JArr items => "[" ++ String.concat "," (map stringify items) ++ "]"
  | JObj props =>
      "{" ++ String.concat "," (map (fun kv => quote kv.1 ++ ":" ++ stringify kv.2) props)
          ++ "}"
  end.

Definition is_ws (c : ascii) : bool :=
  let n := nat_of_ascii c in
  (n =? 32)%nat || (n =? 9)%nat || (n =? 10)%nat || (n =? 13)%nat.

Fixpoint skip_ws (s : string) : string :=
  match s with
  | String c r => if is_ws c then skip_ws r else s
  | EmptyString => s
  end.

Definition hex_value (c : ascii) : option nat :=
  let n := nat_of_ascii c in
  if (48 <=? n)%nat && (n <=? 57)%nat then Some (n - 48)%nat
  else if (97 <=? n)%nat && (n <=? 102)%nat then Some (n - 87)%nat
  else if (65 <=? n)%nat && (n <=? 70)%nat then Some (n - 55)%nat
  else None.

(** The four hex digits after [\u]; a code unit of 256 or more lies
    outside the strings of this embedding. *)
Definition unicode_escape (s : string) : option (ascii * string) :=
  match s with
  | String a (String b (String c (String d r))) =>
      ha ← hex_value a; hb ← hex_value b; hc ← hex_value c; hd ← hex_value d;
      if (ha =? 0)%nat && (hb =? 0)%nat
      then Some (ascii_of_nat (16 * hc + hd), r) else None
  | _ => None
  end.

(** The characters of a string literal up to its closing quote. *)
Fixpoint string_body (s : string) : option (string * string) :=
  match s with
  | EmptyString => None
  | String c r =>
      let n := nat_of_ascii c in
      if (n =? 34)%nat then Some (EmptyString, r)
      else if (n <? 32)%nat then None
      else if (n =? 92)%nat then
        match r with
        | String e r' =>
            let one (x : nat) :=
              '(body, rest) ← string_body r'; Some (String (ascii_of_nat x) body, rest) in
            let m := nat_of_ascii e in
            if (m =? 34)%nat then one 34%nat
            else if (m =? 92)%nat then one 92%nat
            else if (m =? 47)%nat then one 47%nat
            else if (m =? 98)%nat then one 8%nat
            else if (m =? 102)%nat then one 12%nat
            else if (m =? 110)%nat then one 10%nat
            else if (m =? 114)%nat then one 13%nat
            else if (m =? 116)%nat then one 9%nat
            else if (m =? 117)%nat then
              match r' with
              | String a (String b (String c' (String d r''))) =>
                  '(u, _) ← unicode_escape r';
                  '(body, rest) ← string_body r'';
                  Some (String u body, rest)
              | _ => None
              end
            else None
        | EmptyString => None
        end
      else '(body, rest) ← string_body r; Some (String c body, rest)
  end.

Fixpoint number_digits (acc : Z) (s : string) : Z * string :=
  match s with
  | String c r =>
      match Calendar.digit_of c with
      | Some d => number_digits (10 * acc + d) r
      | None => (acc, s)
      end
  | EmptyString => (acc, s)
  end.

(** An integer literal: no leading zero, no fraction, no exponent. *)
Definition natural (s : string) : option (Z * string) :=
  match s with
  | String c r =>
      match Calendar.digit_of c with
      | Some 0 =>
          match r with
          | String c' _ =>
              match Calendar.digit_of c' with Some _ => None | None => Some (0, r) end
          | EmptyString => Some (0, r)
          end
      | Some d => Some (number_digits d r)
      | None => None
      end
  | EmptyString => None
  end.

Definition no_fraction (r : Z * string) : option (Z * string) :=
  match r.2 with
  | String c _ =>
      if Ascii.eqb c "." || Ascii.eqb c "e" || Ascii.eqb c "E" then None else Some r
  | EmptyString => Some r
  end.

(** A later duplicate of a key replaces the value and keeps the place. *)
Fixpoint put (k : string) (v : json) (o : JSObject) : JSObject :=
  match o with
  | [] => [(k, v)]
  | (k', v') :: o' => if String.eqb k k' then (k, v) :: o' else (k', v') :: put k v o'
  end.

Fixpoint value (fuel : nat) (s : string) {struct fuel} : option (json * string) :=
  match fuel with
  | O => None
  | S f =>
      match skip_ws s with
      | String c r =>
          let n := nat_of_ascii c in
          if (n =? 34)%nat then '(b, rest) ← string_body r; Some (JStr b, rest)
          else if (n =? 91)%nat then
            match skip_ws r with
            | String "]" rest => Some (JArr [], rest)
            | _ => '(l, rest) ← elements f r; Some (JArr l, rest)
            end
          else if (n =? 123)%nat then
            match skip_ws r with
            | String "}" rest => Some (JObj [], rest)
            | _ => '(o, rest) ← members f [] r; Some (JObj o, rest)
            end
          else if (n =? 110)%nat then
            rest ← strip_prefix "ull" r; Some (JNull, rest)
          else if (n =? 116)%nat then
            rest ← strip_prefix "rue" r; Some (JBool true, rest)
          else if (n =? 102)%nat then
            rest ← strip_prefix "alse" r; Some (JBool false, rest)
          else if (n =? 45)%nat then
            '(z, rest) ← natural r ≫= no_fraction; Some (JNum (- z), rest)
          else '(z, rest) ← natural (String c r) ≫= no_fraction; Some (JNum z, rest)
      | EmptyString => None
      end
  end
with elements (fuel : nat) (s : string) {struct fuel} : option (list json * string) :=
  match fuel with
  | O => None
  | S f =>
      '(v, r) ← value f s;
      match skip_ws r with
      | String "," r' => '(l, rest) ← elements f r'; Some (v :: l, rest)
      | String "]" rest => Some ([v], rest)
      | _ => None
      end
  end
with members (fuel : nat) (acc : JSObject) (s : string) {struct fuel}
  : option (JSObject * string) :=
  match fuel with
  | O => None
  | S f =>
      match skip_ws s with
      | String c r =>
          if (nat_of_ascii c =? 34)%nat then
            '(k, r) ← string_body r;
            match skip_ws r with
            | String ":" r =>
                '(v, r) ← value f r;
                let acc := put k v acc in
                match skip_ws r with
                | String "," r' => members f acc r'
                | String "}" rest => Some (acc, rest)
                | _ => None
                end
            | _ => None
            end
          else None
      | EmptyString => None
      end
  end.

Definition parse (s : string) : option json :=
  '(v, rest) ← value (2 * String.length s + 8) s;
  match skip_ws rest with
  | EmptyString => Some v
  | String _ _ => None
  end.

End Json.

Definition utc_platform : Platform :=
  {| Date_parse := Calendar.parse;
     Date_toISOString := Calendar.toISOString;
     Date_localDate := Calendar.localDate;
     JSON_stringify := Json.stringify;
     JSON_parse := Json.parse |}.

(** ** The predicates of the properties *)

(** What a tick may do to a task: every field but [notified] is kept, and
    [notified] is kept or goes from not set (false or absent) to [true]. *)
Definition tick_frame (t t' : Task) : Prop :=
  id t' = id t /\ title t' = title t /\ notes t' = notes t /\ due t' = due t
  /\ completed t' = completed t /\ createdAt t' = createdAt t
  /\ (notified t' = notified t \/ (is_notified t = false /\ notified t' = Some true)).

(** Every [due] that is set denotes a date. *)
Definition dues_valid (P : Platform) (l : list Task) : Prop :=
  Forall (fun t => due_date P t <> Some None) l.

(** The order of the view: ascending by the time value of [due], a task
    without [due] after every task with one. *)
Definition due_leb (P : Platform) (a b : Task) : bool :=
  match due_date P a, due_date P b with
  | _, None => true
  | Some (Some x), Some (Some y) => x <=? y
  | _, _ => false
  end.

(** The tasks of [l] whose sort key is [k], in the order of [l]. *)
Definition with_key (P : Platform) (k : option (option Z)) (l : list Task) : list Task :=
  List.filter (fun t => bool_decide (due_date P t = k)) l.

(** The test a task passes to be in [selected]: the tab, the filter and
    the search, in that order. *)
Definition selects (P : Platform) (clock : Z) (tab : Tab) (filter : Filter)
           (query : string) (t : Task) : bool :=
  match tab with today => isToday P clock (due_date P t) | all => true end
  && match filter with
     | pending => negb (completed t)
     | completed_only => completed t
     | all_tasks => true
     end
  && (if Str.truthy (Str.trim query)
      then Str.includes (Str.toLowerCase (title t)) (Str.toLowerCase query)
      else true).

(** The values of a task's properties: strings and booleans. *)
Definition simple (v : json) : Prop :=
  match v with JStr _ | JBool _ => True | _ => False end.

Definition print_prop (kv : string * json) : string :=
  Json.quote kv.1 ++ ":" ++ Json.stringify kv.2.

(** An object as [object_of_task] builds it: some properties, at most
    seven, strings or booleans, no key twice. *)
Definition task_like (o : JSObject) : Prop :=
  o <> [] /\ Forall (fun kv => simple kv.2) o /\ (length o < 8)%nat
  /\ fold_left (fun a kv => Json.put kv.1 kv.2 a) o [] = o.

(** ** Concrete inputs *)

Definition stale_task : Task :=
  mkTask "1700000000000_k3x9aa" "Pay bill" None (Some "2024-03-01T09:30:00.000Z")
         false (Some true) "2024-02-01T08:00:00.000Z".

Definition new_due_only : PartialTask :=
  mkPartial None None None (Some (Some "2024-04-01T09:30:00.000Z")) None None None.

Definition new_due_reset : PartialTask :=
  mkPartial None None None (Some (Some "2024-04-01T09:30:00.000Z")) None
            (Some (Some false)) None.

Definition no_notification_api : Window := mkWindow false Pdefault (Some Pgranted) [] [].

Definition done_task : Task :=
  mkTask "1700000000001_aaaaaa" "Book flights" None (Some "2024-03-01T09:30:00.000Z")
         true (Some false) "2024-02-01T08:00:00.000Z".

Definition undated_task : Task :=
  mkTask "1700000000002_bbbbbb" "Read" (Some "chapter 3") None
         false (Some false) "2024-02-01T08:00:00.000Z".

Definition due_task : Task :=
  mkTask "1700000000003_cccccc" "Pay bill" None (Some "2024-03-01T09:30:00.000Z")
         false (Some false) "2024-02-01T08:00:00.000Z".

Definition board : list Task := [done_task; undated_task; due_task].

(** 2024-03-01T09:30:00Z, the deadline of [due_task], and moments around it. *)
Definition T0 : Z := 1709285400000.
Definition before_T0 : Z := T0 - 60000.
Definition after_T0 : Z := T0 + 1000.
Definition later_T0 : Z := T0 + 31000.

Definition granted_window : Window := mkWindow true Pgranted None [] [].
Definition denied_window : Window := mkWindow true Pdenied None [] [].
Definition throwing_window : Window := mkWindow true Pgranted None [false; false] [].

Definition draft_bad_due : FormData :=
  {| fd_title := Some "Pay bill"; fd_notes := Some ""; fd_due := Some "soon" |}.

Definition draft_good : FormData :=
  {| fd_title := Some "  Pay bill "; fd_notes := Some " by card ";
     fd_due := Some "2024-03-01T09:30" |}.

Definition draft_blank : FormData :=
  {| fd_title := Some "   "; fd_notes := None; fd_due := Some "2024-03-01T09:30" |}.

Definition readings : Readings :=
  {| uid_now := 1700000000004; uid_random := "dddddd"; created_now := 1700000000005 |}.

(** 2024-03-02T09:30:01Z, a day after [after_T0]. *)
Definition next_day : Z := after_T0 + 86400000.

Definition quoted_task : Task :=
  mkTask "1700000000006_eeeeee" (String Json.dquote "Pay\bill" ++ String Json.dquote " now")
         (Some "line one
line two") (Some "2024-03-01T09:30:00.000Z") false None "2024-02-01T08:00:00.000Z".

Definition corrupt_store : Storage := <[STORAGE_KEY := "[{"]> ∅.

Definition early_task : Task :=
  mkTask "1700000000007_ffffff" "Call bank" None (Some "2024-02-28T17:00:00.000Z")
         false (Some true) "2024-02-01T08:00:00.000Z".

Definition undated_task' : Task :=
  mkTask "1700000000008_gggggg" "Tidy desk" None None
         false (Some false) "2024-02-01T08:00:00.000Z".

Definition same_due_task : Task :=
  mkTask "1700000000009_hhhhhh" "Send invoice" None (Some "2024-03-01T09:30:00.000Z")
         false (Some false) "2024-02-01T08:00:00.000Z".

Definition unsorted_board : list Task :=
  [undated_task; due_task; undated_task'; same_due_task; early_task].

(** ** The rest of [App.tsx] *)

(** The notification [notifyTask] constructs for a task. *)
Definition reminder (task : Task) : Notification :=
  {| n_title := "Reminder: " ++ title task;
     n_body := Str.or_else (default "" (notes task)) "Tap to open and mark complete";
     n_tag := id task;
     n_requireInteraction := true |}.

(** [isOverdue] of [TaskRow]:
    [t.due ? new Date(t.due).getTime() < Date.now() && !t.completed : false];
    [NaN < now] is false. *)
Definition isOverdue (P : Platform) (now : Z) (t : Task) : bool :=
  if has_due t then
    match Date_parse P (default "" (due t)) with
    | Some dueTs => (dueTs <? now) && negb (completed t)
    | None => false
    end
  else false.

(** [requestNotif]: whether it raised the alert, and the window after. *)
Definition requestNotif (w : Window) : bool * Window :=
  let (p, w') := ensureNotificationPermission w in
  (negb (bool_decide (p = Pgranted)), w').

(** The tasks a tick has marked: not notified in [prev], notified in
    [next], in the order of the array. *)
Definition notified_by_tick (prev next : list Task) : list Task :=
  map fst (List.filter (fun p => negb (is_notified p.1) && is_notified p.2)
                       (combine prev next)).

(** What the user and the timer can do to the task state. [Edit k f] is
    [Save] in the [EditInline] of the task at position [k] with the form in
    state [f]; a row that is not there has no form. *)
Inductive Action :=
| AddTask (fd : FormData) (r : Readings)
| ToggleComplete (i : string)
| RemoveTask (i : string)
| Edit (k : nat) (f : EditForm)
| ResetAll (confirmed : bool)
| Tick (now : Z) (w : Window).

Definition handle (P : Platform) (a : Action) (prev : list Task) : Outcome :=
  match a with
  | AddTask fd r => addTask P fd r prev
  | ToggleComplete i => toggleComplete i prev
  | RemoveTask i => removeTask i prev
  | Edit k f =>
      match prev !! k with
      | Some t => onSave P t f prev
      | None => NoUpdate
      end
  | ResetAll confirmed => resetAll confirmed
  | Tick now w => (tick P now prev w).1
  end.

Definition step (P : Platform) (st : AppState) (a : Action) : AppState :=
  commit P st (handle P a (tasks st)).

Definition run (P : Platform) (actions : list Action) (st : AppState) : AppState :=
  fold_left (step P) actions st.


(** The store holds what the state holds. *)
Definition synced (P : Platform) (st : AppState) : Prop :=
  loadTasks P (localStorage st) = map object_of_task (tasks st).

Definition titles_nonempty (l : list Task) : Prop :=
  Forall (fun t => Str.truthy (title t) = true) l.

(** ** The service worker, [public/sw.js]

    A response is its status and body; a request its method and URL. The
    network answers a request or fails ([None]). A cache maps the URL of a
    GET request to the response stored for it; [caches] is the list of the
    named caches in the order of their creation. Responses carry no [Vary]
    header. *)

Module SW.

Record Response := { status : nat; body : string }.

Record Request := { method : string; url : string }.

Definition GET (u : string) : Request := {| method := "GET"; url := u |}.

Definition Network := Request -> option Response.

Abbreviation Cache := (gmap string Response).

Definition CacheStorage := list (string * gmap string Response).

Definition CACHE : string := "todo-reminder-mvp-v1".

Definition ASSETS : list string := ["/"; "/index.html"; "/manifest.webmanifest"].

(** [response.ok] *)
Definition ok (r : Response) : bool :=
  (200 <=? status r)%nat && (status r <=? 299)%nat.

(** The responses [cache.addAll] accepts: an [ok] status that is not 206
    (Partial Content). *)
Definition storable (r : Response) : bool :=
  ok r && negb (status r =? 206)%nat.

(** [caches.open(name)]: the cache of that name, created empty at the end
    of the list when there is none. *)
Fixpoint open (name : string) (cs : CacheStorage) : CacheStorage :=
  match cs with
  | [] => [(name, ∅)]
  | (n, c) :: rest => if String.eqb n name then cs else (n, c) :: open name rest
  end.

Fixpoint get_cache (name : string) (cs : CacheStorage) : gmap string Response :=
  match cs with
  | [] => ∅
  | (n, c) :: rest => if String.eqb n name then c else get_cache name rest
  end.

Fixpoint set_cache (name : string) (c : gmap string Response) (cs : CacheStorage)
  : CacheStorage :=
  match cs with
  | [] => []
  | (n, c') :: rest =>
      if String.eqb n name then (n, c) :: rest else (n, c') :: set_cache name c rest
  end.

(** The fetches of [cache.addAll(urls)]: every response, or [None] when a
    fetch fails or a response is not one [addAll] accepts. *)
Fixpoint fetch_all (net : Network) (urls : list string) : option (list (string * Response)) :=
  match urls with
  | [] => Some []
  | u :: rest =>
      match net (GET u) with
      | Some r =>
          if storable r then
            match fetch_all net rest with
            | Some l => Some ((u, r) :: l)
            | None => None
            end
          else None
      | None => None
      end
  end.

Definition put_all (l : list (string * Response)) (c : gmap string Response)
  : gmap string Response :=
  fold_left (fun c ur => <[ur.1 := ur.2]> c) l c.

(** The [install] handler: whether the promise given to [waitUntil]
    fulfilled, and the caches after. [addAll] stores all or nothing. *)
Definition install (net : Network) (cs : CacheStorage) : bool * CacheStorage :=
  let cs1 := open CACHE cs in
  match fetch_all net ASSETS with
  | Some l => (true, set_cache CACHE (put_all l (get_cache CACHE cs1)) cs1)
  | None => (false, cs1)
  end.

(** [caches.match(req)]: the first cache, in creation order, that holds
    the URL; only a GET matches. *)
Fixpoint caches_match (cs : CacheStorage) (req : Request) : option Response :=
  match cs with
  | [] => None
  | (_, c) :: rest =>
      if String.eqb (method req) "GET" then
        match c !! url req with
        | Some r => Some r
        | None => caches_match rest req
        end
      else None
  end.

(** The [fetch] handler: [cached || fetch(req)]; [None] is a rejected
    promise, a network error for the page. *)
Definition on_fetch (cs : CacheStorage) (net : Network) (req : Request) : option Response :=
  match caches_match cs req with
  | Some cached => Some cached
  | None => net req
  end.

Definition offline : Network := fun _ => None.

End SW.

Definition granted_window_asked : Window := mkWindow true Pgranted (Some Pgranted) [] [].

(** Whether a string has a character that is not white space. *)
Fixpoint nonblank (s : string) : bool :=
  match s with
  | EmptyString => false
  | String c r => negb (Str.is_whitespace c) || nonblank r
  end.

(** Whether the character occurs in the string. *)
Fixpoint has_char (c : ascii) (s : string) : bool :=
  match s with
  | EmptyString => false
  | String c' r => Ascii.eqb c c' || has_char c r
  end.

Definition number_store : Storage := <[STORAGE_KEY := "[1,null]"]> ∅.

Definition good_network : SW.Network :=
  fun req => Some {| SW.status := 200; SW.body := SW.url req |}.

(** A network where the manifest is missing. *)
Definition broken_network : SW.Network :=
  fun req =>
    if String.eqb (SW.url req) "/manifest.webmanifest"
    then Some {| SW.status := 404; SW.body := "" |}
    else Some {| SW.status := 200; SW.body := SW.url req |}.

(** A network that answers every request with 206 Partial Content. *)
Definition partial_network : SW.Network :=
  fun req => Some {| SW.status := 206; SW.body := SW.url req |}.

(** ** Deserialization, the memo of [todayList], the storage quota *)

(** Text that deserializes to a sequence of tasks: it parses to an array
    each element of which reads as a [Task]. *)
Definition reads_as_tasks (P : Platform) (raw : string) : Prop :=
  exists items, JSON_parse P raw = Some (JArr items)
                /\ Forall (fun v => is_Some (task_of_object (JS.spread_copy v))) items.

(** The body of the [visible] memo as the source has it, over the
    [todayList] it is given: [let list = tab === 'today' ? todayList : tasks],
    then the filters and the sort. *)
Definition visible_of (P : Platform) (todayList tasks : list Task) (tab : Tab)
           (filter : Filter) (query : string) : list Task :=
  let list := match tab with today => todayList | all => tasks end in
  let list := match filter with
              | pending => List.filter (fun t => negb (completed t)) list
              | _ => list
              end in
  let list := match filter with
              | completed_only => List.filter (fun t => completed t) list
              | _ => list
              end in
  let list := if Str.truthy (Str.trim query)
              then List.filter (fun t => Str.includes (Str.toLowerCase (title t))
                                                      (Str.toLowerCase query)) list
              else list in
  Array_sort (by_due P) list.

(** What a render holds: the task array and the value of
    [useMemo(() => tasks.filter(...), [tasks])]. *)
Record Screen := {
  scr_tasks : list Task;
  scr_todayList : list Task
}.

(** The first render, at clock reading [clock]. *)
Definition first_render (P : Platform) (clock : Z) (tasks0 : list Task) : Screen :=
  {| scr_tasks := tasks0; scr_todayList := todayList P clock tasks0 |}.

(** The render after an outcome, at clock reading [clock]: the memo of
    [todayList] has the one dependency [tasks], so it is computed anew, and
    [isToday] reads the clock, only when the array was replaced. *)
Definition rerender (P : Platform) (clock : Z) (sc : Screen) (o : Outcome) : Screen :=
  match o with
  | Update next => {| scr_tasks := next; scr_todayList := todayList P clock next |}
  | NoUpdate | Throws => sc
  end.

(** [visible] of a render; a change of [tab], [filter] or [query] computes
    it anew from the memoised [todayList], at whatever time. *)
Definition screen_visible (P : Platform) (sc : Screen) (tab : Tab) (filter : Filter)
           (query : string) : list Task :=
  visible_of P (scr_todayList sc) (scr_tasks sc) tab filter query.

(** The characters [localStorage] holds. *)
Definition used_space (ls : Storage) : nat :=
  map_fold (fun k v acc => String.length k + String.length v + acc)%nat 0%nat ls.

(** [localStorage.setItem(k, v)] under a quota: [None] is the
    QuotaExceededError, and the store is then as it was. *)
Definition setItem (quota : nat) (k v : string) (ls : Storage) : option Storage :=
  let ls' := <[k := v]> ls in
  if (used_space ls' <=? quota)%nat then Some ls' else None.

(** [saveTasks] when the write can fail; [saveTasks] above is the write
    that succeeds. *)
Definition saveTasks_within (P : Platform) (quota : nat) (tasks : list Task)
           (ls : Storage) : option Storage :=
  setItem quota STORAGE_KEY (stringify_tasks P tasks) ls.

(** [commit] when the write can fail: the state after, and whether the
    effect ran without throwing. On a failed write the state holds the new
    array and the store the old text. *)
Definition commit_within (P : Platform) (quota : nat) (st : AppState) (o : Outcome)
  : AppState * bool :=
  match o with
  | Update next =>
      match saveTasks_within P quota next (localStorage st) with
      | Some ls' => ({| tasks := next; localStorage := ls' |}, true)
      | None => ({| tasks := next; localStorage := localStorage st |}, false)
      end
  | NoUpdate | Throws => (st, true)
  end.

(** A run that ends at the first write that fails. *)
Fixpoint run_within (P : Platform) (quota : nat) (actions : list Action) (st : AppState)
  : AppState * bool :=
  match actions with
  | [] => (st, true)
  | a :: rest =>
      let (st', written) := commit_within P quota st (handle P a (tasks st)) in
      if written then run_within P quota rest st' else (st', false)
  end.

(** The first render and the actions after it. *)
Definition session (P : Platform) (quota : nat) (tasks0 : list Task) (ls : Storage)
           (actions : list Action) : AppState * bool :=
  match saveTasks_within P quota tasks0 ls with
  | Some ls' => run_within P quota actions {| tasks := tasks0; localStorage := ls' |}
  | None => ({| tasks := tasks0; localStorage := ls |}, false)
  end.

Definition late_task : Task :=
  mkTask "1700000000010_iiiiii" "Renew passport" None (Some "2025-01-01T00:00:00.000Z")
         false (Some false) "2024-02-01T08:00:00.000Z".

Definition soon_task : Task :=
  mkTask "1700000000011_jjjjjj" "Water plants" None (Some "soon")
         false (Some false) "2024-02-01T08:00:00.000Z".

Definition nan_board : list Task := [late_task; soon_task; early_task].

(** * Properties *)

(** ** The concrete calendar on a few dates *)

Example parse_epoch : Calendar.parse "1970-01-01T00:00" = Some 0.
Proof. reflexivity. Qed.

Example parse_2024 : Calendar.parse "2024-03-01T09:30" = Some 1709285400000.
Proof. reflexivity. Qed.

Example iso_2024 : Calendar.toISOString 1709285400000 = "2024-03-01T09:30:00.000Z".
Proof. reflexivity. Qed.

Example parse_iso_2024 :
  Calendar.parse (Calendar.toISOString 1709285400123) = Some 1709285400123.
Proof. reflexivity. Qed.

Example parse_words : Calendar.parse "soon" = None.
Proof. reflexivity. Qed.

Example parse_february_30 : Calendar.parse "2024-02-30T00:00" = None.
Proof. reflexivity. Qed.

Example localDate_2024 : Calendar.localDate 1709285400000 = (2024, 2, 1).
Proof. reflexivity. Qed.


(** ** Editing a task *)

Lemma saveEdit_lookup (i : string) (u : PartialTask) (prev : list Task) (k : nat) :
  snapshot_after prev (saveEdit i u prev) !! k
  = (fun t => if String.eqb (id t) i then spread t u else t) <$> prev !! k.
Proof. simpl. apply list_lookup_fmap. Qed.

(** [saveEdit] is a plain merge: with an update record that sets [due] and
    carries no [notified], a task that was notified stays notified. *)
Lemma saveEdit_due_keeps_notified :
  ~ (forall (prev : list Task) (i : string) (u : PartialTask) (k : nat) (t : Task),
        prev !! k = Some t -> id t = i -> is_Some (p_due u) ->
        exists t', snapshot_after prev (saveEdit i u prev) !! k = Some t'
                   /\ notified t' = Some false).
Proof.
  intros H.
  destruct (H [stale_task] (id stale_task) new_due_only 0%nat stale_task)
    as (t' & Hk & Hn); [reflexivity | reflexivity | by eexists |].
  vm_compute in Hk. injection Hk as <-. discriminate Hn.
Qed.

(** The update records of [EditInline.onSave], the one caller of
    [saveEdit]: [due] is always a key, and [notified] is [false]. *)
Lemma onSave_updates_shape (P : Platform) (t : Task) (f : EditForm) (u : PartialTask) :
  onSave_updates P t f = Some u ->
  is_Some (p_due u) /\ p_notified u = Some (Some false).
Proof.
  unfold onSave_updates. intros H.
  destruct (e_due f) as [[ts|]|]; simpl in H; try discriminate;
    injection H as <-; simpl; eauto.
Qed.

(** C1 (amended). For every snapshot, every position holding a task with the
    given id, and every update record that includes [due] and carries
    [notified = false], [saveEdit] yields a snapshot whose task at that
    position is the merge of the two and has [notified = false], whatever
    the task's prior [notified]. *)
Theorem saveEdit_resets_notified
        (prev : list Task) (i : string) (u : PartialTask) (k : nat) (t : Task) :
  prev !! k = Some t -> id t = i ->
  is_Some (p_due u) -> p_notified u = Some (Some false) ->
  exists t', snapshot_after prev (saveEdit i u prev) !! k = Some t'
             /\ t' = spread t u
             /\ notified t' = Some false.
Proof.
  intros Hk Hi _ Hn. exists (spread t u).
  rewrite saveEdit_lookup, Hk. simpl.
  rewrite <- Hi, String.eqb_refl. repeat split.
  unfold spread; simpl. by rewrite Hn.
Qed.

Lemma saveEdit_resets_notified_witness :
  exists t', snapshot_after [stale_task] (saveEdit (id stale_task) new_due_reset [stale_task])
               !! 0%nat = Some t'
             /\ t' = spread stale_task new_due_reset
             /\ notified t' = Some false.
Proof.
  apply (saveEdit_resets_notified [stale_task] (id stale_task) new_due_reset 0 stale_task).
  - reflexivity.
  - reflexivity.
  - by eexists.
  - reflexivity.
Defined.

(** ** Permission *)

(** Without the capability the result is [denied]: the result type is
    [NotificationPermission], which has no value of its own for it. *)
Lemma ensureNotificationPermission_absent_is_denied :
  ~ (forall w : Window,
        Notification_in_window w = false ->
        (ensureNotificationPermission w).1 <> Pdenied).
Proof.
  intros H. apply (H no_notification_api); reflexivity.
Qed.

(** C2 (amended). When the notification capability is absent,
    [ensureNotificationPermission] returns [denied], for every permission
    state, and asks nothing of the platform. *)
Theorem ensureNotificationPermission_absent (w : Window) :
  Notification_in_window w = false ->
  ensureNotificationPermission w = (Pdenied, w).
Proof.
  intros H. unfold ensureNotificationPermission. by rewrite H.
Qed.

Lemma ensureNotificationPermission_absent_witness :
  ensureNotificationPermission no_notification_api = (Pdenied, no_notification_api).
Proof.
  apply (ensureNotificationPermission_absent no_notification_api). reflexivity.
Defined.

(** ** The scheduler tick, task by task *)

Section TickFacts.
Context (P : Platform).

Lemma tick_task_eligible (now : Z) (t : Task) (w : Window) :
  tick_task P now t w
  = if eligible P now t
    then (if (notifyTask t w).1 then set_notified t else t,
          (notifyTask t w).1, (notifyTask t w).2)
    else (t, false, w).
Proof.
  unfold tick_task, eligible.
  destruct (has_due t), (completed t), (is_notified t); simpl; try reflexivity.
  destruct (Date_parse P (default "" (due t))) as [dueTs|]; [|reflexivity].
  destruct (dueTs <=? now); [|reflexivity].
  by destruct (notifyTask t w) as [[] w'].
Qed.

Lemma tick_task_not_eligible (now : Z) (t : Task) (w : Window) :
  eligible P now t = false -> tick_task P now t w = (t, false, w).
Proof. intros H. by rewrite tick_task_eligible, H. Qed.

(** The flag is set exactly when the task was replaced. *)
Lemma tick_task_unchanged (now : Z) (t : Task) (w : Window) :
  (tick_task P now t w).1.2 = false -> (tick_task P now t w).1.1 = t.
Proof.
  rewrite tick_task_eligible.
  destruct (eligible P now t); [|done].
  by destruct (notifyTask t w) as [[] w'].
Qed.

Lemma tick_map_cons (now : Z) (t : Task) (rest : list Task) (w : Window) :
  tick_map P now (t :: rest) w
  = ((tick_task P now t w).1.1
       :: (tick_map P now rest (tick_task P now t w).2).1.1,
     (tick_task P now t w).1.2
       || (tick_map P now rest (tick_task P now t w).2).1.2,
     (tick_map P now rest (tick_task P now t w).2).2).
Proof.
  simpl. destruct (tick_task P now t w) as [[t' c] w1]. simpl.
  by destruct (tick_map P now rest w1) as [[rest' c'] w2].
Qed.

Lemma tick_map_length (now : Z) (prev : list Task) (w : Window) :
  length (tick_map P now prev w).1.1 = length prev.
Proof.
  revert w. induction prev as [|t rest IH]; intros w; [done|].
  rewrite tick_map_cons. simpl. by rewrite IH.
Qed.

Lemma window_at_0 (now : Z) (prev : list Task) (w : Window) :
  window_at P now prev w 0 = w.
Proof. unfold window_at. by rewrite take_0. Qed.

Lemma window_at_S (now : Z) (t : Task) (rest : list Task) (w : Window) (i : nat) :
  window_at P now (t :: rest) w (S i)
  = window_at P now rest (tick_task P now t w).2 i.
Proof. unfold window_at. by rewrite firstn_cons, tick_map_cons. Qed.

(** Position [i] of the mapped array is the callback on position [i] of
    the input, run in the window the earlier positions have left. *)
Lemma tick_map_lookup (now : Z) (prev : list Task) (w : Window) (i : nat) (t : Task) :
  prev !! i = Some t ->
  (tick_map P now prev w).1.1 !! i
  = Some (tick_task P now t (window_at P now prev w i)).1.1.
Proof.
  revert w i. induction prev as [|t0 rest IH]; intros w i Hi; [done|].
  rewrite tick_map_cons. destruct i as [|i]; simpl in *.
  - injection Hi as ->. by rewrite window_at_0.
  - rewrite window_at_S. by apply IH.
Qed.

Lemma tick_map_unchanged (now : Z) (prev : list Task) (w : Window) :
  (tick_map P now prev w).1.2 = false -> (tick_map P now prev w).1.1 = prev.
Proof.
  revert w. induction prev as [|t rest IH]; intros w; [done|].
  rewrite tick_map_cons. simpl. intros [Ht Hr]%orb_false_iff.
  by rewrite tick_task_unchanged, IH.
Qed.

(** The snapshot after a tick is the mapped array, whether or not the
    updater handed [prev] back. *)
Lemma tick_snapshot (now : Z) (prev : list Task) (w : Window) :
  snapshot_after prev (tick P now prev w).1 = (tick_map P now prev w).1.1.
Proof.
  unfold tick.
  pose proof (tick_map_unchanged now prev w) as H.
  destruct (tick_map P now prev w) as [[next changed] w']. simpl in *.
  destruct changed; simpl; [done|]. symmetry. by apply H.
Qed.

Lemma tick_lookup (now : Z) (prev : list Task) (w : Window) (i : nat) (t : Task) :
  prev !! i = Some t ->
  snapshot_after prev (tick P now prev w).1 !! i
  = Some (tick_task P now t (window_at P now prev w i)).1.1.
Proof. rewrite tick_snapshot. apply tick_map_lookup. Qed.

(** A tick over tasks none of which is eligible dispatches nothing and
    hands [prev] back. *)
Lemma tick_map_idle (now : Z) (prev : list Task) (w : Window) :
  Forall (fun t => eligible P now t = false) prev ->
  tick_map P now prev w = (prev, false, w).
Proof.
  revert w. induction prev as [|t rest IH]; intros w H; [done|].
  inversion H as [|? ? Ht Hrest]; subst.
  rewrite tick_map_cons, (tick_task_not_eligible _ _ _ Ht). simpl.
  by rewrite (IH _ Hrest).
Qed.

Lemma eligible_set_notified (now : Z) (t : Task) :
  eligible P now (set_notified t) = false.
Proof.
  unfold eligible, is_notified. simpl.
  by rewrite andb_false_r.
Qed.

(** Eligibility only grows with the clock. *)
Lemma eligible_later (now now' : Z) (t : Task) :
  now <= now' -> eligible P now t = true -> eligible P now' t = true.
Proof.
  unfold eligible. intros Hle.
  destruct (has_due t && negb (completed t) && negb (is_notified t)); [|done].
  simpl. destruct (Date_parse P (default "" (due t))) as [dueTs|]; [|done].
  intros H%Z.leb_le. apply Z.leb_le. lia.
Qed.

End TickFacts.

(** ** What the scheduler leaves alone *)

(** C3. A tick hands back unchanged, and so never sets [notified] on, a task
    that is completed, or has no [due], or whose [due] lies strictly after
    [now]; over a run of ticks, such a task (with [due] after every clock
    reading of the run) is still the same task at the end. *)
Theorem tick_never_notifies_ineligible
        (P : Platform) (prev : list Task) (i : nat) (t : Task) :
  prev !! i = Some t ->
  (forall (now : Z) (w : Window),
      completed t = true \/ due t = None
      \/ (exists s ts, due t = Some s /\ Date_parse P s = Some ts /\ now < ts) ->
      snapshot_after prev (tick P now prev w).1 !! i = Some t)
  /\ (forall ticks : list (Z * Window),
         completed t = true \/ due t = None
         \/ (exists s ts, due t = Some s /\ Date_parse P s = Some ts
                          /\ Forall (fun tk => tk.1 < ts) ticks) ->
         run_ticks P ticks prev !! i = Some t).
Proof.
  intros Hi.
  assert (Hone : forall now w,
             completed t = true \/ due t = None
             \/ (exists s ts, due t = Some s /\ Date_parse P s = Some ts /\ now < ts) ->
             forall prev', prev' !! i = Some t ->
             snapshot_after prev' (tick P now prev' w).1 !! i = Some t).
  { intros now w Hc prev' Hi'.
    rewrite (tick_lookup P now prev' w i t Hi'), tick_task_not_eligible; [done|].
    unfold eligible, has_due.
    destruct Hc as [Hc | [Hd | (s & ts & Hd & Hp & Hlt)]].
    - rewrite Hc. simpl. by rewrite andb_false_r.
    - by rewrite Hd.
    - rewrite Hd. simpl. rewrite Hp.
      replace (ts <=? now) with false; [by rewrite andb_false_r|].
      symmetry. apply Z.leb_gt. lia. }
  split.
  - intros now w Hc. by apply Hone.
  - intros ticks. revert prev Hi.
    induction ticks as [|[now w] rest IH]; intros prev Hi Hc; [done|].
    simpl. apply IH.
    + apply Hone; [|done].
      destruct Hc as [Hc | [Hd | (s & ts & Hd & Hp & Hall)]]; [by left | by right; left |].
      right; right. exists s, ts. repeat split; try done.
      by inversion Hall.
    + destruct Hc as [Hc | [Hd | (s & ts & Hd & Hp & Hall)]]; [by left | by right; left |].
      right; right. exists s, ts. repeat split; try done.
      by inversion Hall.
Qed.

Lemma tick_never_notifies_ineligible_witness :
  snapshot_after board (tick utc_platform before_T0 board granted_window).1 !! 2%nat
  = Some due_task
  /\ run_ticks utc_platform [(after_T0, granted_window); (later_T0, granted_window)] board
       !! 0%nat = Some done_task.
Proof.
  split.
  - apply (tick_never_notifies_ineligible utc_platform board 2 due_task); [reflexivity|].
    right; right. exists "2024-03-01T09:30:00.000Z", T0.
    split; [reflexivity|]. split; [reflexivity|]. unfold before_T0. lia.
  - apply (tick_never_notifies_ineligible utc_platform board 0 done_task); [reflexivity|].
    left. reflexivity.
Defined.

(** C10. A tick keeps the number of tasks and their order, and position by
    position keeps [id], [title], [notes], [due], [completed] and
    [createdAt]; [notified] is kept or goes from not set to [true]. *)
Theorem tick_frame_preserved (P : Platform) (now : Z) (prev : list Task) (w : Window) :
  length (snapshot_after prev (tick P now prev w).1) = length prev
  /\ Forall2 tick_frame prev (snapshot_after prev (tick P now prev w).1).
Proof.
  rewrite tick_snapshot. split; [apply tick_map_length|].
  revert w. induction prev as [|t rest IH]; intros w; [constructor|].
  rewrite tick_map_cons. simpl. constructor; [|apply IH].
  rewrite tick_task_eligible. unfold tick_frame.
  destruct (eligible P now t) eqn:He; simpl; [|by repeat split; try left].
  destruct (notifyTask t w) as [[] w']; simpl; [|by repeat split; try left].
  repeat split. right. split; [|done].
  unfold eligible in He.
  destruct (is_notified t); [|done].
  by rewrite andb_false_r in He.
Qed.

(** ** Idempotence and retry *)

Lemma dispatch_result_Some (P : Platform) (now : Z) (prev : list Task) (w : Window)
      (i : nat) (b : bool) :
  dispatch_result P now prev w i = Some b ->
  exists t, prev !! i = Some t /\ eligible P now t = true
            /\ (notifyTask t (window_at P now prev w i)).1 = b.
Proof.
  unfold dispatch_result. destruct (prev !! i) as [t|]; [|done].
  destruct (eligible P now t) eqn:He; [|done].
  intros [= Hb]. by exists t.
Qed.

(** After a tick none of whose dispatches failed, no task is eligible at
    the same clock reading. *)
Lemma tick_exhausts (P : Platform) (now : Z) (prev : list Task) (w : Window) :
  (forall i, dispatch_result P now prev w i <> Some false) ->
  Forall (fun t => eligible P now t = false)
         (snapshot_after prev (tick P now prev w).1).
Proof.
  intros Hok. apply Forall_lookup. intros i t' Hi'.
  assert (i < length prev)%nat as Hlt.
  { rewrite <- (tick_map_length P now prev w), <- tick_snapshot.
    by eapply lookup_lt_Some. }
  destruct (lookup_lt_is_Some_2 prev i Hlt) as [t Hi].
  rewrite (tick_lookup P now prev w i t Hi) in Hi'. injection Hi' as <-.
  rewrite tick_task_eligible.
  specialize (Hok i). unfold dispatch_result in Hok. rewrite Hi in Hok.
  destruct (eligible P now t) eqn:He; [|done]. simpl.
  destruct (notifyTask t (window_at P now prev w i)).1; [|done].
  apply eligible_set_notified.
Qed.

(** C5. When every dispatch attempted in a tick succeeded, a second tick at
    the same clock reading, in whatever window, dispatches nothing, hands
    the snapshot back as it is, and the store is not written. *)
Theorem tick_twice_is_idle
        (P : Platform) (now : Z) (prev : list Task) (w1 w2 : Window) (ls : Storage) :
  (forall i, dispatch_result P now prev w1 i <> Some false) ->
  let s1 := snapshot_after prev (tick P now prev w1).1 in
  tick P now s1 w2 = (NoUpdate, w2)
  /\ snapshot_after s1 (tick P now s1 w2).1 = s1
  /\ commit P {| tasks := s1; localStorage := ls |} (tick P now s1 w2).1
     = {| tasks := s1; localStorage := ls |}.
Proof.
  intros Hok s1.
  assert (tick P now s1 w2 = (NoUpdate, w2)) as Hidle.
  { unfold tick. by rewrite (tick_map_idle P now s1 w2 (tick_exhausts P now prev w1 Hok)). }
  by rewrite Hidle.
Qed.

Lemma tick_twice_is_idle_witness :
  let s1 := snapshot_after board (tick utc_platform after_T0 board granted_window).1 in
  tick utc_platform after_T0 s1 throwing_window = (NoUpdate, throwing_window)
  /\ snapshot_after s1 (tick utc_platform after_T0 s1 throwing_window).1 = s1
  /\ commit utc_platform {| tasks := s1; localStorage := ∅ |}
            (tick utc_platform after_T0 s1 throwing_window).1
     = {| tasks := s1; localStorage := ∅ |}.
Proof.
  apply (tick_twice_is_idle utc_platform after_T0 board granted_window throwing_window ∅).
  intros i. destruct i as [|[|[|i]]]; vm_compute; discriminate.
Defined.

(** C6. When the dispatch for an eligible task fails during a tick, the tick
    hands the task back as it was, [notified] not set, so that it is
    eligible at every later clock reading; and over a run of ticks in each
    of which its dispatch fails, it is still that same task at the end. *)
Theorem failed_dispatch_keeps_eligible
        (P : Platform) (now : Z) (prev : list Task) (w : Window) (i : nat) (t : Task) :
  prev !! i = Some t ->
  eligible P now t = true ->
  (dispatch_result P now prev w i = Some false ->
   snapshot_after prev (tick P now prev w).1 !! i = Some t
   /\ is_notified t = false
   /\ forall now', now <= now' -> eligible P now' t = true)
  /\ (forall ticks : list (Z * Window),
         always_fails P i ticks prev = true ->
         run_ticks P ticks prev !! i = Some t
         /\ forall now', now <= now' -> eligible P now' t = true).
Proof.
  intros Hi He.
  assert (Hone : forall now0 w0 prev0,
             prev0 !! i = Some t -> dispatch_result P now0 prev0 w0 i = Some false ->
             snapshot_after prev0 (tick P now0 prev0 w0).1 !! i = Some t).
  { intros now0 w0 prev0 Hi0 Hd.
    destruct (dispatch_result_Some _ _ _ _ _ _ Hd) as (t0 & Hi0' & He0 & Hn).
    rewrite Hi0 in Hi0'. injection Hi0' as <-.
    rewrite (tick_lookup P now0 prev0 w0 i t Hi0), tick_task_eligible, He0. simpl.
    by rewrite Hn. }
  assert (Hlater : forall now', now <= now' -> eligible P now' t = true).
  { intros now' Hle. by eapply eligible_later. }
  split.
  - intros Hd. split; [by apply Hone|]. split; [|done].
    unfold eligible in He. destruct (is_notified t); [|done].
    by rewrite andb_false_r in He.
  - intros ticks Hall. split; [|done].
    clear He Hlater. revert prev Hi Hall.
    induction ticks as [|[now0 w0] rest IH]; intros prev Hi Hall; [done|].
    simpl in *. apply andb_true_iff in Hall as [Hd Hrest].
    apply bool_decide_eq_true in Hd.
    apply IH; [by apply Hone | done].
Qed.

Lemma failed_dispatch_keeps_eligible_witness :
  snapshot_after board (tick utc_platform after_T0 board denied_window).1 !! 2%nat
  = Some due_task
  /\ run_ticks utc_platform [(after_T0, denied_window); (later_T0, throwing_window)] board
       !! 2%nat = Some due_task
  /\ eligible utc_platform later_T0 due_task = true.
Proof.
  destruct (failed_dispatch_keeps_eligible
              utc_platform after_T0 board denied_window 2 due_task)
    as [Hone Hrun]; [reflexivity | vm_compute; reflexivity |].
  split; [apply Hone; vm_compute; reflexivity|].
  split.
  - apply (Hrun [(after_T0, denied_window); (later_T0, throwing_window)]).
    vm_compute; reflexivity.
  - apply Hone; [vm_compute; reflexivity|]. unfold later_T0, after_T0. lia.
Defined.

(** The two scenarios of the specification on [board]: with permission
    denied the task stays as it is over two ticks; once a dispatch succeeds
    it is notified and the next tick changes nothing. *)
Example retry_scenario :
  always_fails utc_platform 2 [(after_T0, denied_window); (later_T0, denied_window)] board
  = true
  /\ run_ticks utc_platform [(after_T0, denied_window); (later_T0, denied_window)] board
     = board.
Proof. split; vm_compute; reflexivity. Qed.

Example notify_once_scenario :
  tick utc_platform after_T0 board granted_window
  = (Update [done_task; undated_task; set_notified due_task],
     mkWindow true Pgranted None []
              [{| n_title := "Reminder: Pay bill";
                  n_body := "Tap to open and mark complete";
                  n_tag := "1700000000003_cccccc";
                  n_requireInteraction := true |}])
  /\ (tick utc_platform later_T0 [done_task; undated_task; set_notified due_task]
           granted_window).1 = NoUpdate.
Proof. split; vm_compute; reflexivity. Qed.

(** ** Adding a task *)

Example trim_blank : Str.trim "   " = EmptyString.
Proof. reflexivity. Qed.

Example addTask_good :
  addTask utc_platform draft_good readings board
  = Update (mkTask "1700000000004_dddddd" "Pay bill" (Some "by card")
                   (Some "2024-03-01T09:30:00.000Z") false (Some false)
                   "2023-11-14T22:13:20.005Z" :: board).
Proof. vm_compute. reflexivity. Qed.

(** A draft with a title and a [due] string that is no date: the conversion
    to ISO throws, and no task is added. *)
Lemma addTask_invalid_due_adds_nothing :
  ~ (forall (P : Platform) (fd : FormData) (r : Readings) (prev : list Task),
        Str.truthy (Str.trim (Str.of_nullable (fd_title fd))) = true ->
        exists item,
          snapshot_after prev (addTask P fd r prev) = item :: prev
          /\ completed item = false /\ notified item = Some false
          /\ title item = Str.trim (Str.of_nullable (fd_title fd))
          /\ notes item = Str.or_undefined (Str.trim (Str.of_nullable (fd_notes fd)))
          /\ (due item = None
              \/ exists ts, Date_parse P (Str.trim (Str.of_nullable (fd_due fd))) = Some ts
                            /\ due item = Some (Date_toISOString P ts))).
Proof.
  intros H.
  destruct (H utc_platform draft_bad_due readings []) as (item & Hs & _); [reflexivity|].
  vm_compute in Hs. discriminate Hs.
Qed.

(** C4 (amended). With a title that is empty after trimming, [addTask]
    leaves the snapshot as it is. With a non-empty trimmed title and a [due]
    string that is empty after trimming or denotes a date, it puts exactly
    one new task in front: not completed, not notified, with the trimmed
    title, the notes trimmed or unset, and [due] the ISO form of the parsed
    string or unset. *)
Theorem addTask_spec (P : Platform) (fd : FormData) (r : Readings) (prev : list Task) :
  let title' := Str.trim (Str.of_nullable (fd_title fd)) in
  let notes' := Str.trim (Str.of_nullable (fd_notes fd)) in
  let dueStr := Str.trim (Str.of_nullable (fd_due fd)) in
  (Str.truthy title' = false ->
   addTask P fd r prev = NoUpdate /\ snapshot_after prev (addTask P fd r prev) = prev)
  /\ (Str.truthy title' = true ->
      Str.truthy dueStr = false \/ is_Some (Date_parse P dueStr) ->
      exists item,
        addTask P fd r prev = Update (item :: prev)
        /\ snapshot_after prev (addTask P fd r prev) = item :: prev
        /\ completed item = false /\ notified item = Some false
        /\ title item = title'
        /\ notes item = Str.or_undefined notes'
        /\ due item = (if Str.truthy dueStr
                       then Date_toISOString P <$> Date_parse P dueStr else None)).
Proof.
  intros title' notes' dueStr. unfold addTask. fold title' notes' dueStr.
  split.
  - intros ->. done.
  - intros -> Hdue. simpl.
    destruct (Str.truthy dueStr) eqn:Hd.
    + destruct Hdue as [? | [ts Hts]]; [done|].
      unfold toISOString_of_string. rewrite Hts. simpl.
      eexists. repeat split.
    + simpl. eexists. repeat split.
Qed.

Lemma addTask_spec_witness :
  (addTask utc_platform draft_blank readings board = NoUpdate
   /\ snapshot_after board (addTask utc_platform draft_blank readings board) = board)
  /\ exists item,
      addTask utc_platform draft_good readings board = Update (item :: board)
      /\ snapshot_after board (addTask utc_platform draft_good readings board)
         = item :: board
      /\ completed item = false /\ notified item = Some false
      /\ title item = "Pay bill"
      /\ notes item = Some "by card"
      /\ due item = Some "2024-03-01T09:30:00.000Z".
Proof.
  split.
  - apply (addTask_spec utc_platform draft_blank readings board). reflexivity.
  - apply (addTask_spec utc_platform draft_good readings board); [reflexivity|].
    right. by eexists.
Defined.

(** ** The view and the clock *)







(** Across midnight with the tasks unchanged the [today] tab still shows
    yesterday's list; a replacement of the array brings the new date in. *)
Example today_is_stale_until_tasks_change :
  screen_visible utc_platform
                 (rerender utc_platform next_day (first_render utc_platform after_T0 board)
                           NoUpdate)
                 today pending EmptyString = [due_task]
  /\ screen_visible utc_platform
                    (rerender utc_platform next_day
                              (first_render utc_platform after_T0 board) (Update board))
                    today pending EmptyString = [].
Proof. split; vm_compute; reflexivity. Qed.

(** ** The concrete [JSON] on arrays of tasks *)

Section JsonFacts.

Local Arguments String.append !_ _ / : simpl nomatch.

Lemma append_assoc (a b c : string) : ((a ++ b) ++ c)%string = (a ++ (b ++ c))%string.
Proof. induction a as [|x a IH]; simpl; [done | by rewrite IH]. Qed.

Lemma append_length (a b : string) :
  String.length (a ++ b) = (String.length a + String.length b)%nat.
Proof. induction a as [|x a IH]; simpl; [done | by rewrite IH]. Qed.

Lemma string_concat_cons (sep x : string) (l : list string) :
  l <> [] -> String.concat sep (x :: l) = (x ++ sep ++ String.concat sep l)%string.
Proof. by destruct l. Qed.

Lemma string_body_escape_char (c : ascii) (tail : string) :
  Json.string_body (Json.escape_char c ++ tail)
  = '(body, rest) ← Json.string_body tail; Some (String c body, rest).
Proof. destruct c as [[] [] [] [] [] [] [] []]; reflexivity. Qed.

Lemma string_body_escape (s rest : string) :
  Json.string_body (Json.escape s ++ String Json.dquote rest) = Some (s, rest).
Proof.
  induction s as [|c s IH]; [reflexivity|].
  simpl Json.escape. rewrite append_assoc, string_body_escape_char, IH. reflexivity.
Qed.

Lemma value_quote (f : nat) (s rest : string) :
  Json.value (S f) (Json.quote s ++ rest) = Some (JStr s, rest).
Proof.
  unfold Json.quote. simpl. rewrite append_assoc. simpl.
  rewrite string_body_escape. reflexivity.
Qed.

Lemma value_simple (f : nat) (v : json) (rest : string) :
  simple v -> Json.value (S f) (Json.stringify v ++ rest) = Some (v, rest).
Proof.
  destruct v as [|[]| |s| |]; try done; intros _.
  exact (value_quote f s rest).
Qed.

Lemma members_S (f : nat) (acc : JSObject) (k tail : string) :
  Json.members (S f) acc (Json.quote k ++ ":" ++ tail)
  = '(v, r) ← Json.value f tail;
    match Json.skip_ws r with
    | String "," r' => Json.members f (Json.put k v acc) r'
    | String "}" rest => Some (Json.put k v acc, rest)
    | _ => None
    end.
Proof.
  unfold Json.quote. simpl. rewrite append_assoc. simpl.
  rewrite string_body_escape. reflexivity.
Qed.

Local Arguments Json.value : simpl never.
Local Arguments Json.members : simpl never.
Local Arguments Json.elements : simpl never.

Lemma members_one (f : nat) (acc : JSObject) (k : string) (v : json) (tail : string) :
  simple v ->
  Json.members (S (S f)) acc (print_prop (k, v) ++ tail)
  = match Json.skip_ws tail with
    | String "," r' => Json.members (S f) (Json.put k v acc) r'
    | String "}" rest => Some (Json.put k v acc, rest)
    | _ => None
    end.
Proof.
  intros Hv. unfold print_prop. simpl fst. simpl snd.
  rewrite !append_assoc, members_S, (value_simple f v tail Hv). reflexivity.
Qed.

Lemma members_simple (props : list (string * json)) :
  forall (f : nat) (acc : JSObject) (rest : string),
    props <> [] -> Forall (fun kv => simple kv.2) props ->
    (length props < f)%nat ->
    Json.members f acc (String.concat "," (map print_prop props) ++ String "}" rest)
    = Some (fold_left (fun a kv => Json.put kv.1 kv.2 a) props acc, rest).
Proof.
  induction props as [|[k v] props IH]; intros f acc rest Hne Hs Hf; [done|].
  inversion Hs as [|? ? Hv Hs']; subst. simpl in Hv.
  destruct f as [|[|f]]; simpl in Hf; try lia.
  destruct props as [|p props].
  - cbn [map String.concat].
    rewrite members_one by done. reflexivity.
  - rewrite map_cons, string_concat_cons, !append_assoc, members_one by done. simpl.
    apply IH; [done | done | simpl in *; lia].
Qed.

Lemma stringify_obj (props : list (string * json)) :
  Json.stringify (JObj props)
  = String "{" (String.concat "," (map print_prop props) ++ "}").
Proof. reflexivity. Qed.

Lemma stringify_arr (items : list json) :
  Json.stringify (JArr items)
  = String "[" (String.concat "," (map Json.stringify items) ++ "]").
Proof. reflexivity. Qed.

Lemma value_brace_quote (f : nat) (tl : string) :
  Json.value (S f) (String "{" (String Json.dquote tl))
  = '(o, rest) ← Json.members f [] (String Json.dquote tl); Some (JObj o, rest).
Proof. reflexivity. Qed.

Lemma value_bracket_brace (f : nat) (tl : string) :
  Json.value (S f) (String "[" (String "{" tl))
  = '(l, rest) ← Json.elements f (String "{" tl); Some (JArr l, rest).
Proof. reflexivity. Qed.

Lemma elements_S (f : nat) (s : string) :
  Json.elements (S f) s
  = '(v, r) ← Json.value f s;
    match Json.skip_ws r with
    | String "," r' => '(l, rest) ← Json.elements f r'; Some (v :: l, rest)
    | String "]" rest => Some ([v], rest)
    | _ => None
    end.
Proof. reflexivity. Qed.

Lemma object_of_task_like (t : Task) : task_like (object_of_task t).
Proof.
  destruct t as [i ti [n|] [d|] c [nf|] ca];
    (split; [done|]); (split; [repeat constructor|]); (split; [simpl; lia|]); reflexivity.
Qed.

Lemma concat_props_head (o : JSObject) :
  o <> [] -> exists tl, String.concat "," (map print_prop o) = String Json.dquote tl.
Proof.
  destruct o as [|[k v] [|p o]]; [done | |]; intros _.
  - eexists. reflexivity.
  - eexists. rewrite map_cons, string_concat_cons by done. reflexivity.
Qed.

Lemma value_task_like (f : nat) (o : JSObject) (rest : string) :
  task_like o -> (8 <= f)%nat ->
  Json.value (S f) (Json.stringify (JObj o) ++ rest) = Some (JObj o, rest).
Proof.
  intros (Hne & Hs & Hlen & Hput) Hf.
  rewrite stringify_obj. simpl. rewrite append_assoc. simpl.
  destruct (concat_props_head o Hne) as [tl Htl].
  assert (String.concat "," (map print_prop o) ++ String "}" rest
          = String Json.dquote (tl ++ String "}" rest))%string as E
      by (by rewrite Htl).
  rewrite E, value_brace_quote, <- E, members_simple; [|done|done|lia].
  simpl. by rewrite Hput.
Qed.

Lemma elements_task_like (objs : list JSObject) :
  forall (f : nat) (rest : string),
    objs <> [] -> Forall task_like objs -> (length objs + 9 <= f)%nat ->
    Json.elements f (String.concat "," (map (fun o => Json.stringify (JObj o)) objs)
                     ++ String "]" rest)
    = Some (map JObj objs, rest).
Proof.
  induction objs as [|o objs IH]; intros f rest Hne Ho Hf; [done|].
  inversion Ho as [|? ? Ho1 Ho']; subst.
  destruct f as [|[|f]]; simpl in Hf; try lia.
  destruct objs as [|o2 objs].
  - cbn [map String.concat].
    rewrite elements_S, value_task_like; [|done|lia]. reflexivity.
  - rewrite map_cons, string_concat_cons, !append_assoc by done.
    rewrite elements_S, value_task_like; [|done|simpl in Hf; lia]. simpl.
    rewrite IH; [done | done | done | simpl in *; lia].
Qed.

Lemma concat_length (l : list string) :
  Forall (fun s => (1 <= String.length s)%nat) l ->
  (length l <= String.length (String.concat "," l))%nat.
Proof.
  induction l as [|x [|y l] IH]; intros H; [simpl; lia | |].
  - inversion H; subst. simpl. lia.
  - inversion H as [|? ? Hx H']; subst. rewrite string_concat_cons, !append_length by done.
    specialize (IH H'). simpl in *. lia.
Qed.

(** [Json.parse] reads back what [Json.stringify] writes for an array of
    tasks. *)
Lemma Json_parse_stringify_tasks (tasks : list Task) :
  Json.parse (Json.stringify (JArr (map (fun t => JObj (object_of_task t)) tasks)))
  = Some (JArr (map (fun t => JObj (object_of_task t)) tasks)).
Proof.
  destruct tasks as [|t tasks]; [reflexivity|].
  unfold Json.parse.
  set (objs := map object_of_task (t :: tasks)).
  assert (map (fun t => JObj (object_of_task t)) (t :: tasks) = map JObj objs) as ->
      by (unfold objs; by rewrite map_map).
  rewrite stringify_arr, map_map.
  set (body := String.concat "," (map (fun o => Json.stringify (JObj o)) objs)).
  assert (length objs <= String.length body)%nat as Hlen.
  { pose proof (concat_length (map (fun o => Json.stringify (JObj o)) objs)) as H.
    rewrite length_map in H. apply H.
    apply Forall_map, Forall_forall. intros o _.
    rewrite stringify_obj. simpl. lia. }
  assert (exists tl, body = String "{" tl) as [tl Htl].
  { unfold body, objs. destruct tasks; eexists; [reflexivity|].
    cbn [map]. rewrite string_concat_cons, stringify_obj by done. reflexivity. }
  assert (String "[" (body ++ "]") = String "[" (String "{" (tl ++ "]")))%string as E
      by (by rewrite Htl).
  simpl String.length. rewrite append_length. simpl String.length.
  replace (2 * S (String.length body + 1) + 8)%nat
    with (S (2 * String.length body + 11))%nat by lia.
  rewrite E, value_bracket_brace.
  replace (String "{" (tl ++ "]"))%string with (body ++ String "]" "")%string
    by (by rewrite Htl).
  unfold body. rewrite elements_task_like; [done | done | | fold body; lia].
  unfold objs. apply Forall_map, Forall_forall. intros t' _. apply object_of_task_like.
Qed.

End JsonFacts.

(** ** The store *)

Lemma task_of_object_of_task (t : Task) : task_of_object (object_of_task t) = Some t.
Proof. destruct t as [i ti [n|] [d|] c [nf|] ca]; reflexivity. Qed.

Lemma spread_copy_task (t : Task) : JS.spread_copy (JObj (object_of_task t)) = object_of_task t.
Proof. reflexivity. Qed.

Lemma loadTasks_absent (P : Platform) (ls : Storage) :
  ls !! STORAGE_KEY = None -> loadTasks P ls = [].
Proof. intros H. unfold loadTasks. by rewrite H. Qed.

Lemma loadTasks_corrupt (P : Platform) (ls : Storage) (raw : string) :
  ls !! STORAGE_KEY = Some raw -> JSON_parse P raw = None -> loadTasks P ls = [].
Proof.
  intros H Hp. unfold loadTasks. rewrite H, Hp. by destruct (Str.truthy raw).
Qed.

Lemma loadTasks_saveTasks_on (P : Platform) (tasks : list Task) (ls : Storage) :
  JSON_parse P EmptyString = None ->
  JSON_parse P (stringify_tasks P tasks)
  = Some (JArr (map (fun t => JObj (object_of_task t)) tasks)) ->
  loadTasks P (saveTasks P tasks ls) = map object_of_task tasks
  /\ map task_of_object (loadTasks P (saveTasks P tasks ls)) = map Some tasks.
Proof.
  intros Hempty Hround.
  assert (loadTasks P (saveTasks P tasks ls) = map object_of_task tasks) as Hload.
  { unfold loadTasks, saveTasks. rewrite lookup_insert_eq.
    destruct (Str.truthy (stringify_tasks P tasks)) eqn:Hraw; simpl.
    - rewrite Hround, map_map. apply map_ext. intros t. apply spread_copy_task.
    - destruct (stringify_tasks P tasks); [|discriminate Hraw].
      rewrite Hempty in Hround. discriminate Hround. }
  split; [done|].
  rewrite Hload, map_map. apply map_ext. intros t. apply task_of_object_of_task.
Qed.

(** An array that holds no task deserializes to no task sequence, and
    still [loadTasks] returns one object for each of its elements. *)
Lemma loadTasks_keeps_incompatible_array :
  ~ (forall (P : Platform) (ls : Storage),
        ls !! STORAGE_KEY = None
        \/ (exists raw, ls !! STORAGE_KEY = Some raw /\ ~ reads_as_tasks P raw) ->
        loadTasks P ls = []).
Proof.
  intros H.
  assert (loadTasks utc_platform number_store = []) as Hload.
  { apply H. right. exists "[1,null]". split; [reflexivity|].
    intros (items & Hp & Hall). vm_compute in Hp. injection Hp as <-.
    inversion Hall as [|? ? [t Ht] _]; subst. vm_compute in Ht. discriminate Ht. }
  vm_compute in Hload. discriminate Hload.
Qed.

(** C7 (amended). [loadTasks] after [saveTasks] returns the saved tasks,
    object for object what was written, and read through the type [Task]
    the same sequence: on every platform whose [JSON.parse] rejects the
    empty text and reads back the array [JSON.stringify] wrote, and so on
    the concrete platform, for every sequence of tasks. From a store where
    the slot is absent, or holds the empty text, or text that [JSON.parse]
    rejects, or text that parses to something that is no array, [loadTasks]
    returns the empty sequence. Text that parses to an array is not
    validated: [loadTasks] returns one object for each element. *)
Theorem loadTasks_after_saveTasks :
  (forall (P : Platform) (tasks : list Task) (ls : Storage),
      JSON_parse P EmptyString = None ->
      JSON_parse P (stringify_tasks P tasks)
      = Some (JArr (map (fun t => JObj (object_of_task t)) tasks)) ->
      loadTasks P (saveTasks P tasks ls) = map object_of_task tasks
      /\ map task_of_object (loadTasks P (saveTasks P tasks ls)) = map Some tasks)
  /\ (forall (tasks : list Task) (ls : Storage),
         loadTasks utc_platform (saveTasks utc_platform tasks ls) = map object_of_task tasks
         /\ map task_of_object (loadTasks utc_platform (saveTasks utc_platform tasks ls))
            = map Some tasks)
  /\ (forall (P : Platform) (ls : Storage),
         ls !! STORAGE_KEY = None
         \/ (exists raw, ls !! STORAGE_KEY = Some raw
                         /\ (raw = EmptyString
                             \/ JSON_parse P raw = None
                             \/ exists j, JSON_parse P raw = Some j
                                          /\ forall items, j <> JArr items)) ->
         loadTasks P ls = [])
  /\ (forall (P : Platform) (ls : Storage) (raw : string) (items : list json),
         ls !! STORAGE_KEY = Some raw -> raw <> EmptyString ->
         JSON_parse P raw = Some (JArr items) ->
         loadTasks P ls = map JS.spread_copy items
         /\ length (loadTasks P ls) = length items).
Proof.
  split; [|split; [|split]].
  - apply loadTasks_saveTasks_on.
  - intros tasks ls. apply loadTasks_saveTasks_on; [reflexivity|].
    apply Json_parse_stringify_tasks.
  - intros P ls [Habs | (raw & Hraw & [-> | [Hp | (j & Hp & Hj)]])].
    + by apply loadTasks_absent.
    + unfold loadTasks. by rewrite Hraw.
    + by eapply loadTasks_corrupt.
    + unfold loadTasks. rewrite Hraw, Hp.
      destruct (Str.truthy raw); simpl; [|done].
      destruct j; try done. by destruct (Hj items).
  - intros P ls raw items Hraw Hne Hp. unfold loadTasks. rewrite Hraw, Hp.
    destruct raw; [done|]. simpl. split; [done|]. apply length_map.
Qed.

Lemma loadTasks_after_saveTasks_witness :
  (loadTasks utc_platform (saveTasks utc_platform (quoted_task :: board) corrupt_store)
   = map object_of_task (quoted_task :: board)
   /\ map task_of_object
          (loadTasks utc_platform (saveTasks utc_platform (quoted_task :: board) corrupt_store))
      = map Some (quoted_task :: board))
  /\ loadTasks utc_platform corrupt_store = []
  /\ loadTasks utc_platform ∅ = []
  /\ loadTasks utc_platform (<[STORAGE_KEY := "{}"]> ∅) = []
  /\ loadTasks utc_platform number_store = [[]; []].
Proof.
  destruct loadTasks_after_saveTasks as (Hround & _ & Hfail & Harr).
  split; [|split; [|split; [|split]]].
  - apply (Hround utc_platform (quoted_task :: board) corrupt_store); vm_compute; reflexivity.
  - apply (Hfail utc_platform corrupt_store). right. exists "[{".
    split; [vm_compute; reflexivity|]. right. left. vm_compute; reflexivity.
  - apply (Hfail utc_platform ∅). left. reflexivity.
  - apply (Hfail utc_platform (<[STORAGE_KEY := "{}"]> ∅)). right. exists "{}".
    split; [vm_compute; reflexivity|]. right. right. exists (JObj []).
    split; [vm_compute; reflexivity | discriminate].
  - apply (Harr utc_platform number_store "[1,null]" [JNum 1; JNull]);
      [vm_compute; reflexivity | discriminate | vm_compute; reflexivity].
Defined.

Example stored_text :
  stringify_tasks utc_platform [undated_task]
  = String "[" (String "{" (Json.quote "id" ++ ":" ++ Json.quote "1700000000002_bbbbbb"
      ++ "," ++ Json.quote "title" ++ ":" ++ Json.quote "Read"
      ++ "," ++ Json.quote "notes" ++ ":" ++ Json.quote "chapter 3"
      ++ "," ++ Json.quote "completed" ++ ":false"
      ++ "," ++ Json.quote "notified" ++ ":false"
      ++ "," ++ Json.quote "createdAt" ++ ":" ++ Json.quote "2024-02-01T08:00:00.000Z"
      ++ "}]")).
Proof. vm_compute. reflexivity. Qed.

(** ** The order of the view *)

(** In a strongly sorted list an earlier position is below a later one. *)
Lemma StronglySorted_lookup {A} (R : A -> A -> Prop) (l : list A) (i j : nat) (a b : A) :
  StronglySorted R l -> (i < j)%nat -> l !! i = Some a -> l !! j = Some b -> R a b.
Proof.
  intros Hs. revert i j. induction Hs as [|x l Hs IH Hall]; intros i j Hij Hi Hj; [done|].
  destruct j as [|j]; [lia|]. destruct i as [|i]; simpl in *.
  - injection Hi as <-. rewrite Forall_forall in Hall.
    apply Hall. apply list_elem_of_lookup. eauto.
  - apply (IH i j); [lia | done | done].
Qed.

Section SortFacts.
Context (P : Platform).

Local Abbreviation cmp := (sort_compare (by_due P)).
Local Abbreviation le := (fun a b => due_leb P a b = true).

Lemma by_due_cases (a b : Task) :
  by_due P a b
  = match due_date P a, due_date P b with
    | None, None => Some 0
    | None, Some _ => Some 1
    | Some _, None => Some (-1)
    | Some (Some x), Some (Some y) => Some (x - y)
    | Some _, Some _ => None
    end.
Proof.
  unfold by_due, due_date.
  destruct (has_due a), (has_due b); simpl; try reflexivity.
  by destruct (Date_parse P (default "" (due a))), (Date_parse P (default "" (due b))).
Qed.

(** Where the comparator says greater, the order says so. *)
Lemma cmp_pos_le (x y : Task) : 0 < cmp x y -> due_leb P y x = true.
Proof.
  unfold sort_compare, due_leb. rewrite by_due_cases.
  destruct (due_date P x) as [[a|]|], (due_date P y) as [[b|]|]; simpl;
    lia || done.
Qed.

(** Between tasks whose dates are valid, not greater means less or equal. *)
Lemma cmp_nonpos_le (x y : Task) :
  due_date P x <> Some None -> due_date P y <> Some None ->
  ~ 0 < cmp x y -> due_leb P x y = true.
Proof.
  unfold sort_compare, due_leb. rewrite by_due_cases.
  destruct (due_date P x) as [[a|]|], (due_date P y) as [[b|]|]; simpl;
    lia || done.
Qed.

(** Tasks with the same key compare equal. *)
Lemma cmp_pos_key (x y : Task) : 0 < cmp x y -> due_date P x <> due_date P y.
Proof.
  unfold sort_compare. rewrite by_due_cases. intros H E. rewrite E in H.
  destruct (due_date P y) as [[b|]|]; simpl in H; lia.
Qed.

Lemma due_leb_trans (a b c : Task) :
  due_leb P a b = true -> due_leb P b c = true -> due_leb P a c = true.
Proof.
  unfold due_leb.
  destruct (due_date P a) as [[x|]|], (due_date P b) as [[y|]|],
           (due_date P c) as [[z|]|]; try done.
  intros H1%Z.leb_le H2%Z.leb_le. apply Z.leb_le. lia.
Qed.

Lemma sort_insert_perm (x : Task) (l : list Task) :
  sort_insert (by_due P) x l ≡ₚ x :: l.
Proof.
  induction l as [|y l IH]; simpl; [done|].
  destruct (0 <? cmp x y); [|done].
  rewrite IH. apply Permutation_swap.
Qed.

Lemma Array_sort_perm (l : list Task) : Array_sort (by_due P) l ≡ₚ l.
Proof.
  induction l as [|x l IH]; simpl; [done|].
  by rewrite sort_insert_perm, IH.
Qed.

Lemma sort_insert_sorted (x : Task) (l : list Task) :
  due_date P x <> Some None -> dues_valid P l ->
  StronglySorted le l -> StronglySorted le (sort_insert (by_due P) x l).
Proof.
  intros Hx. induction l as [|y l IH]; intros Hv Hs; simpl.
  - repeat constructor.
  - inversion Hv as [|? ? Hy Hl]; subst.
    inversion Hs as [|? ? Hs' Hall]; subst.
    destruct (0 <? cmp x y) eqn:Hc.
    + apply Z.ltb_lt in Hc. constructor; [by apply IH|].
      rewrite sort_insert_perm. constructor; [by apply cmp_pos_le | done].
    + apply Z.ltb_ge in Hc.
      assert (due_leb P x y = true) as Hxy by (apply cmp_nonpos_le; [done | done | lia]).
      constructor; [done|]. constructor; [done|].
      eapply Forall_impl; [exact Hall|]. intros z Hz. simpl in *.
      by eapply due_leb_trans.
Qed.

Lemma Array_sort_sorted (l : list Task) :
  dues_valid P l -> StronglySorted le (Array_sort (by_due P) l).
Proof.
  induction l as [|x l IH]; intros Hv; simpl; [constructor|].
  inversion Hv as [|? ? Hx Hl]; subst.
  apply sort_insert_sorted; [done | | by apply IH].
  unfold dues_valid. by rewrite Array_sort_perm.
Qed.

(** Insertion never moves a task past one of the same key. *)
Lemma sort_insert_with_key (k : option (option Z)) (x : Task) (l : list Task) :
  with_key P k (sort_insert (by_due P) x l) = with_key P k (x :: l).
Proof.
  unfold with_key. induction l as [|y l IH]; [done|].
  simpl sort_insert. destruct (0 <? cmp x y) eqn:Hc; [|done].
  apply Z.ltb_lt, cmp_pos_key in Hc.
  simpl in *. rewrite IH.
  destruct (bool_decide (due_date P x = k)) eqn:Hx; [|done].
  destruct (bool_decide (due_date P y = k)) eqn:Hy; [|done].
  apply bool_decide_eq_true in Hx, Hy. congruence.
Qed.

Lemma Array_sort_with_key (k : option (option Z)) (l : list Task) :
  with_key P k (Array_sort (by_due P) l) = with_key P k l.
Proof.
  induction l as [|x l IH]; [done|].
  simpl Array_sort. rewrite sort_insert_with_key.
  unfold with_key in *. simpl. by rewrite IH.
Qed.

Lemma selected_sublist (clock : Z) (tasks : list Task) (tab : Tab) (filter : Filter)
      (query : string) (t : Task) :
  In t (selected P clock tasks tab filter query) -> In t tasks.
Proof.
  unfold selected, todayList.
  destruct tab, filter, (Str.truthy (Str.trim query)); intros H;
    repeat (apply filter_In in H; destruct H as [H _]); exact H.
Qed.

Lemma filter_filter {A} (f g : A -> bool) (l : list A) :
  List.filter f (List.filter g l) = List.filter (fun x => g x && f x) l.
Proof.
  induction l as [|x l IH]; [done|]. simpl.
  destruct (g x); simpl; [|done]. destruct (f x); by rewrite IH.
Qed.

Lemma filter_all {A} (l : list A) : List.filter (fun _ => true) l = l.
Proof. induction l as [|x l IH]; simpl; [done | by rewrite IH]. Qed.

(** The tasks [visible] sorts are the tasks of the input that pass the
    three tests, in the order of the input. *)
Lemma selected_filter (clock : Z) (tasks : list Task) (tab : Tab) (filter : Filter)
      (query : string) :
  selected P clock tasks tab filter query
  = List.filter (selects P clock tab filter query) tasks.
Proof.
  unfold selected, selects, todayList.
  destruct tab, filter, (Str.truthy (Str.trim query));
    rewrite ?filter_filter;
    try (match goal with
         | |- tasks = _ => etrans; [symmetry; apply filter_all|]
         end);
    apply filter_ext; intros t; simpl;
    by rewrite ?andb_true_r, ?andb_assoc.
Qed.

End SortFacts.

(** A [due] that is no date compares as [NaN], that is as equal, with
    every other: between a later and an earlier date it keeps the later one
    in front. *)
Lemma visible_unsorted_with_invalid_due :
  ~ (forall (P : Platform) (clock : Z) (tasks : list Task) (tab : Tab) (filter : Filter)
            (query : string) (i j : nat) (a b : Task) (x y : Z),
        (i < j)%nat ->
        visible P clock tasks tab filter query !! i = Some a ->
        visible P clock tasks tab filter query !! j = Some b ->
        due_date P a = Some (Some x) -> due_date P b = Some (Some y) -> x <= y).
Proof.
  intros H.
  pose proof (H utc_platform after_T0 nan_board all all_tasks EmptyString 0%nat 2%nat
                late_task early_task 1735689600000 1709139600000) as Hle.
  assert (1735689600000 <= 1709139600000) as Habs.
  { apply Hle; [lia | reflexivity | reflexivity | reflexivity | reflexivity]. }
  lia.
Qed.

(** C8 (amended). For every list of tasks whose [due], where set, denotes a date, the
    list [visible] returns is in ascending order of the [due] time values,
    with every task lacking a [due] after every task having one, and it is
    the tasks of the input that pass the tab, the filter and the search, in
    a stable arrangement: the tasks of any one key (the tasks of one time
    value, the tasks without [due]) stand in the order they have in the
    input. *)
Theorem visible_sorted_stable
        (P : Platform) (clock : Z) (tasks : list Task) (tab : Tab)
        (filter : Filter) (query : string) :
  dues_valid P tasks ->
  let out := visible P clock tasks tab filter query in
  (forall (i j : nat) (a b : Task), (i < j)%nat ->
      out !! i = Some a -> out !! j = Some b ->
      (forall x y, due_date P a = Some (Some x) -> due_date P b = Some (Some y) -> x <= y)
      /\ (has_due b = true -> has_due a = true))
  /\ StronglySorted (fun a b => due_leb P a b = true) out
  /\ out ≡ₚ List.filter (selects P clock tab filter query) tasks
  /\ (forall k, with_key P k out
                = with_key P k (List.filter (selects P clock tab filter query) tasks)).
Proof.
  intros Hv out.
  assert (dues_valid P (selected P clock tasks tab filter query)) as Hsel.
  { unfold dues_valid in *. rewrite Forall_forall in *.
    intros t Ht. apply Hv. apply list_elem_of_In. apply list_elem_of_In in Ht.
    by eapply selected_sublist. }
  assert (StronglySorted (fun a b => due_leb P a b = true) out) as Hs
      by by apply Array_sort_sorted.
  split; [|split; [done|rewrite <- selected_filter;
                         split; [apply Array_sort_perm | intros k; apply Array_sort_with_key]]].
  intros i j a b Hij Hi Hj.
  assert (due_leb P a b = true) as Hab.
  { by apply (StronglySorted_lookup (fun a b => due_leb P a b = true) out i j a b). }
  unfold due_leb in Hab. split.
  - intros x y Ha Hb. rewrite Ha, Hb in Hab. by apply Z.leb_le.
  - unfold due_date in Hab. intros Hb. rewrite Hb in Hab.
    by destruct (has_due a).
Qed.

Lemma visible_sorted_stable_witness :
  let out := visible utc_platform after_T0 unsorted_board all all_tasks EmptyString in
  (forall (i j : nat) (a b : Task), (i < j)%nat ->
      out !! i = Some a -> out !! j = Some b ->
      (forall x y, due_date utc_platform a = Some (Some x) ->
                   due_date utc_platform b = Some (Some y) -> x <= y)
      /\ (has_due b = true -> has_due a = true))
  /\ StronglySorted (fun a b => due_leb utc_platform a b = true) out
  /\ out ≡ₚ List.filter (selects utc_platform after_T0 all all_tasks EmptyString)
                      unsorted_board
  /\ (forall k, with_key utc_platform k out
                = with_key utc_platform k
                    (List.filter (selects utc_platform after_T0 all all_tasks EmptyString)
                                 unsorted_board)).
Proof.
  apply (visible_sorted_stable utc_platform after_T0 unsorted_board all all_tasks EmptyString).
  repeat constructor; vm_compute; discriminate.
Defined.

Example visible_unsorted_board :
  visible utc_platform after_T0 unsorted_board all all_tasks EmptyString
  = [early_task; due_task; same_due_task; undated_task; undated_task'].
Proof. vm_compute. reflexivity. Qed.

Example visible_search :
  visible utc_platform after_T0 unsorted_board today pending "  PAY"
  = [].
Proof. vm_compute. reflexivity. Qed.

Example visible_search_bill :
  visible utc_platform after_T0 unsorted_board today pending "BILL"
  = [due_task].
Proof. vm_compute. reflexivity. Qed.

(** ** Valid dates are kept

    The operations of the application only ever store a [due] that
    [toISOString] produced: on a platform that reads its own ISO strings,
    [dues_valid] holds of every snapshot they build from a valid one. *)

Section DuesValid.
Context (P : Platform).
Hypothesis parse_ISO : forall ts, is_Some (Date_parse P (Date_toISOString P ts)).

Lemma due_date_valid_ISO (t : Task) (ts : Z) :
  due t = Some (Date_toISOString P ts) -> due_date P t <> Some None.
Proof.
  unfold due_date, has_due. intros ->. simpl.
  destruct (Str.truthy (Date_toISOString P ts)); [|done].
  destruct (parse_ISO ts) as [x ->]. done.
Qed.

Lemma due_date_valid_unset (t : Task) : due t = None -> due_date P t <> Some None.
Proof. unfold due_date, has_due. by intros ->. Qed.

Lemma addTask_dues_valid (fd : FormData) (r : Readings) (prev : list Task) :
  dues_valid P prev -> dues_valid P (snapshot_after prev (addTask P fd r prev)).
Proof.
  intros Hv. unfold addTask.
  destruct (Str.truthy (Str.trim (Str.of_nullable (fd_title fd)))); simpl; [|done].
  destruct (Str.truthy (Str.trim (Str.of_nullable (fd_due fd)))); simpl.
  - unfold toISOString_of_string.
    destruct (Date_parse P (Str.trim (Str.of_nullable (fd_due fd)))) as [ts|];
      simpl; [|done].
    constructor; [|done]. by apply (due_date_valid_ISO _ ts).
  - constructor; [|done]. by apply due_date_valid_unset.
Qed.

Lemma onSave_dues_valid (t : Task) (f : EditForm) (prev : list Task) :
  dues_valid P prev -> dues_valid P (snapshot_after prev (onSave P t f prev)).
Proof.
  intros Hv. unfold onSave, onSave_updates.
  destruct (e_due f) as [[ts|]|]; simpl; try done.
  - apply Forall_map. eapply Forall_impl; [exact Hv|]. intros t' Ht'. simpl.
    destruct (String.eqb (id t') (id t)); [|done].
    by apply (due_date_valid_ISO _ ts).
  - apply Forall_map. eapply Forall_impl; [exact Hv|]. intros t' Ht'. simpl.
    destruct (String.eqb (id t') (id t)); [|done].
    by apply due_date_valid_unset.
Qed.

Lemma toggleComplete_dues_valid (i : string) (prev : list Task) :
  dues_valid P prev -> dues_valid P (snapshot_after prev (toggleComplete i prev)).
Proof.
  intros Hv. simpl. apply Forall_map. eapply Forall_impl; [exact Hv|].
  intros t Ht. simpl. by destruct (String.eqb (id t) i).
Qed.

Lemma removeTask_dues_valid (i : string) (prev : list Task) :
  dues_valid P prev -> dues_valid P (snapshot_after prev (removeTask i prev)).
Proof.
  intros Hv. simpl. unfold dues_valid in *. rewrite Forall_forall in *.
  intros t Ht. apply Hv. apply list_elem_of_In. apply list_elem_of_In in Ht.
  apply filter_In in Ht. tauto.
Qed.

Lemma tick_dues_valid (now : Z) (prev : list Task) (w : Window) :
  dues_valid P prev -> dues_valid P (snapshot_after prev (tick P now prev w).1).
Proof.
  rewrite tick_snapshot. revert w.
  induction prev as [|t rest IH]; intros w Hv; [done|].
  inversion Hv as [|? ? Ht Hrest]; subst.
  rewrite tick_map_cons. simpl. constructor; [|by apply IH].
  rewrite tick_task_eligible.
  destruct (eligible P now t); [|done]. simpl.
  by destruct (notifyTask t w).1.
Qed.

End DuesValid.

(** ** Clearing the list *)

Example resetAll_clears :
  let st := {| tasks := board; localStorage := saveTasks utc_platform board ∅ |} in
  tasks (commit utc_platform st (resetAll true)) = []
  /\ localStorage (commit utc_platform st (resetAll true)) !! STORAGE_KEY = Some "[]"
  /\ loadTasks utc_platform (localStorage (commit utc_platform st (resetAll true))) = []
  /\ commit utc_platform st (resetAll false) = st.
Proof. repeat split; vm_compute; reflexivity. Qed.

(** * Further properties of [App.tsx] *)

(** ** Completing, removing, editing *)

Lemma set_completed_twice (t : Task) :
  set_completed (set_completed t (negb (completed t))) (negb (negb (completed t))) = t.
Proof. destruct t as [i ti n d [] nf ca]; reflexivity. Qed.

(** X1. Toggling the same id twice gives back the snapshot it started
    from. *)
Theorem toggleComplete_twice (i : string) (prev : list Task) :
  toggleComplete i (snapshot_after prev (toggleComplete i prev)) = Update prev.
Proof.
  unfold toggleComplete. simpl. f_equal. rewrite map_map.
  induction prev as [|t rest IH]; [done|]. simpl. rewrite IH. f_equal.
  destruct (String.eqb (id t) i) eqn:E; simpl; rewrite E; [|done].
  apply set_completed_twice.
Qed.

(** A task that is eligible at no clock reading stays as it is through any
    run of ticks. *)
Lemma run_ticks_never_eligible (P : Platform) (ticks : list (Z * Window))
      (prev : list Task) (i : nat) (t : Task) :
  (forall now, eligible P now t = false) ->
  prev !! i = Some t -> run_ticks P ticks prev !! i = Some t.
Proof.
  intros Hne. revert prev. induction ticks as [|[now w] rest IH]; intros prev Hi; [done|].
  simpl. apply IH. rewrite (tick_lookup P now prev w i t Hi).
  by rewrite tick_task_not_eligible.
Qed.

Lemma tick_window (P : Platform) (now : Z) (l : list Task) (w : Window) :
  (tick P now l w).2 = (tick_map P now l w).2.
Proof. unfold tick. by destruct (tick_map P now l w) as [[next changed] w']. Qed.

(** A tick treats the window as if a task that is not eligible were not in
    the list: it shows nothing for it and calls no constructor for it. *)
Lemma tick_window_skips (P : Platform) (now : Z) (l : list Task) (k : nat) (t : Task)
      (w : Window) :
  l !! k = Some t -> eligible P now t = false ->
  (tick P now l w).2 = (tick P now (delete k l) w).2.
Proof.
  rewrite !tick_window. revert k w.
  induction l as [|t0 rest IH]; intros k w Hk He; [done|].
  destruct k as [|k]; simpl in Hk.
  - injection Hk as ->. rewrite tick_map_cons. simpl.
    by rewrite (tick_task_not_eligible P now t w He).
  - change (delete (S k) (t0 :: rest)) with (t0 :: delete k rest).
    rewrite !tick_map_cons. simpl. by apply IH.
Qed.

(** X2. Marking a pending task complete changes its [completed] field and
    nothing else, and from then on, in every state a run of ticks reaches,
    the task is still that same record and a further tick leaves the window
    exactly as a tick over the list without the task would: no notification
    is shown for it and no constructor is called for it, whatever its
    [due]. *)
Theorem toggleComplete_suppresses
        (P : Platform) (i : string) (prev : list Task) (k : nat) (t : Task) :
  prev !! k = Some t -> id t = i -> completed t = false ->
  snapshot_after prev (toggleComplete i prev) !! k = Some (set_completed t true)
  /\ forall ticks : list (Z * Window),
      let l := run_ticks P ticks (snapshot_after prev (toggleComplete i prev)) in
      l !! k = Some (set_completed t true)
      /\ forall now w, (tick P now l w).2 = (tick P now (delete k l) w).2.
Proof.
  intros Hk Hi Hc.
  assert (snapshot_after prev (toggleComplete i prev) !! k = Some (set_completed t true))
    as Hnext.
  { simpl. rewrite list_lookup_fmap, Hk. simpl.
    by rewrite <- Hi, String.eqb_refl, Hc. }
  assert (forall now, eligible P now (set_completed t true) = false) as Hne.
  { intros now. unfold eligible. simpl. by rewrite andb_false_r. }
  split; [done|]. intros ticks l.
  assert (l !! k = Some (set_completed t true)) as Hl
      by (by apply run_ticks_never_eligible).
  split; [done|]. intros now w. by apply (tick_window_skips P now l k _ w Hl).
Qed.

Lemma toggleComplete_suppresses_witness :
  snapshot_after board (toggleComplete (id due_task) board) !! 2%nat
  = Some (set_completed due_task true)
  /\ forall ticks : list (Z * Window),
      let l := run_ticks utc_platform ticks
                         (snapshot_after board (toggleComplete (id due_task) board)) in
      l !! 2%nat = Some (set_completed due_task true)
      /\ forall now w, (tick utc_platform now l w).2
                       = (tick utc_platform now (delete 2%nat l) w).2.
Proof.
  apply (toggleComplete_suppresses utc_platform (id due_task) board 2 due_task);
    reflexivity.
Defined.

(** X3. [removeTask] drops every task with the id, duplicates included,
    and keeps the others in their order; with an id no task has it gives the
    same list, so removing twice is removing once. *)
Theorem removeTask_spec (i : string) (prev : list Task) :
  let next := snapshot_after prev (removeTask i prev) in
  Forall (fun t => id t <> i) next
  /\ sublist next prev
  /\ (forall t, t ∈ prev -> id t <> i -> t ∈ next)
  /\ (Forall (fun t => id t <> i) prev -> next = prev)
  /\ removeTask i next = Update next.
Proof.
  simpl.
  assert (Hall : Forall (fun t => id t <> i)
                        (List.filter (fun t => negb (String.eqb (id t) i)) prev)).
  { apply Forall_forall. intros t Ht. apply list_elem_of_In, filter_In in Ht.
    destruct Ht as [_ Ht]. apply negb_true_iff, String.eqb_neq in Ht. done. }
  assert (Hid : forall l, Forall (fun t => id t <> i) l ->
                          List.filter (fun t => negb (String.eqb (id t) i)) l = l).
  { induction l as [|t l IH]; intros H; [done|].
    inversion H as [|? ? Ht Hl]; subst. simpl.
    apply String.eqb_neq in Ht. rewrite Ht. simpl. by rewrite IH. }
  split; [done|]. split; [|split; [|split]].
  - induction prev as [|t rest IH]; [constructor|]. simpl.
    destruct (negb (String.eqb (id t) i)).
    + apply sublist_skip, IH. apply Forall_forall. intros t' Ht'.
      apply list_elem_of_In, filter_In in Ht'.
      destruct Ht' as [_ Ht']. by apply negb_true_iff, String.eqb_neq in Ht'.
    + apply sublist_cons, IH. apply Forall_forall. intros t' Ht'.
      apply list_elem_of_In, filter_In in Ht'.
      destruct Ht' as [_ Ht']. by apply negb_true_iff, String.eqb_neq in Ht'.
  - intros t Ht Hne. apply list_elem_of_In, filter_In. split.
    + by apply list_elem_of_In.
    + by apply negb_true_iff, String.eqb_neq.
  - apply Hid.
  - unfold removeTask. f_equal. by apply Hid.
Qed.

(** X4. [saveEdit] keeps the length of the list and every task with
    another id at its place; with an id no task has, the list it installs
    equals the old one. *)
Theorem saveEdit_frame (i : string) (u : PartialTask) (prev : list Task) :
  let next := snapshot_after prev (saveEdit i u prev) in
  length next = length prev
  /\ (forall k t, prev !! k = Some t -> id t <> i -> next !! k = Some t)
  /\ (Forall (fun t => id t <> i) prev -> next = prev).
Proof.
  simpl. split; [apply length_map|]. split.
  - intros k t Hk Hne. rewrite list_lookup_fmap, Hk. simpl.
    apply String.eqb_neq in Hne. by rewrite Hne.
  - induction prev as [|t rest IH]; intros H; [done|].
    inversion H as [|? ? Ht Hl]; subst. simpl.
    apply String.eqb_neq in Ht. rewrite Ht. by rewrite IH.
Qed.

(** X5. [Save] in the inline editor throws, and updates nothing, exactly
    when the form holds an Invalid Date. Otherwise every task with the id of
    the edited one keeps [id], [completed] and [createdAt], is no longer
    notified, and takes from the form the trimmed title (the old title of
    the edited task when that is empty), the trimmed notes (unset when
    empty) and the ISO form of the date (unset when the form has none). *)
Theorem onSave_spec (P : Platform) (t : Task) (f : EditForm) (prev : list Task) :
  (e_due f = Some None -> onSave P t f prev = Throws)
  /\ (e_due f <> Some None ->
      forall k t0, prev !! k = Some t0 -> id t0 = id t ->
        exists t', snapshot_after prev (onSave P t f prev) !! k = Some t'
          /\ id t' = id t0 /\ completed t' = completed t0 /\ createdAt t' = createdAt t0
          /\ notified t' = Some false
          /\ title t' = Str.or_else (Str.trim (e_title f)) (title t)
          /\ notes t' = Str.or_undefined (Str.trim (e_notes f))
          /\ due t' = match e_due f with
                      | Some (Some ts) => Some (Date_toISOString P ts)
                      | _ => None
                      end).
Proof.
  unfold onSave, onSave_updates. split.
  - by intros ->.
  - intros Hd k t0 Hk Hi.
    destruct (e_due f) as [[ts|]|]; [| done |]; simpl;
      rewrite list_lookup_fmap, Hk; simpl; rewrite <- Hi, String.eqb_refl;
      eexists; repeat split.
Qed.

(** X6. Saving the inline editor as it opened, with nothing changed, still
    resets [notified]: a pending task whose deadline has passed is eligible
    again afterwards, also when it had been notified. *)
Theorem onSave_unchanged_is_eligible_again
        (P : Platform) (prev : list Task) (k : nat) (t : Task) (ts now : Z) :
  prev !! k = Some t ->
  has_due t = true -> completed t = false ->
  Date_parse P (default "" (due t)) = Some ts ->
  Str.truthy (Date_toISOString P ts) = true ->
  Date_parse P (Date_toISOString P ts) = Some ts ->
  ts <= now ->
  exists t', snapshot_after prev (onSave P t (EditInline_init P t) prev) !! k = Some t'
             /\ notified t' = Some false
             /\ eligible P now t' = true.
Proof.
  intros Hk Hdue Hc Hp Htr Hrt Hle.
  unfold onSave, onSave_updates, EditInline_init. simpl.
  unfold has_due in Hdue. destruct (due t) as [s|] eqn:Hs; [|done].
  rewrite Hdue. simpl in Hp. rewrite Hp. simpl.
  rewrite list_lookup_fmap, Hk. simpl. rewrite String.eqb_refl.
  eexists. split; [done|]. split; [done|].
  unfold eligible, has_due, is_notified. simpl.
  rewrite Htr, Hc, Hrt. simpl. by apply Z.leb_le.
Qed.

Lemma onSave_unchanged_is_eligible_again_witness :
  exists t', snapshot_after [stale_task]
               (onSave utc_platform stale_task (EditInline_init utc_platform stale_task)
                       [stale_task]) !! 0%nat = Some t'
             /\ notified t' = Some false
             /\ eligible utc_platform after_T0 t' = true.
Proof.
  apply (onSave_unchanged_is_eligible_again utc_platform [stale_task] 0 stale_task
                                            T0 after_T0);
    try (vm_compute; reflexivity).
  unfold after_T0. lia.
Defined.

(** X7. A task added with a deadline that has already passed is eligible
    at once; a task added without a deadline is eligible at no time. *)
Theorem addTask_eligibility
        (P : Platform) (fd : FormData) (r : Readings) (prev : list Task) :
  Str.truthy (Str.trim (Str.of_nullable (fd_title fd))) = true ->
  let dueStr := Str.trim (Str.of_nullable (fd_due fd)) in
  (forall ts now,
      Str.truthy dueStr = true -> Date_parse P dueStr = Some ts ->
      Str.truthy (Date_toISOString P ts) = true ->
      Date_parse P (Date_toISOString P ts) = Some ts ->
      ts <= now ->
      exists item, addTask P fd r prev = Update (item :: prev)
                   /\ eligible P now item = true)
  /\ (Str.truthy dueStr = false ->
      exists item, addTask P fd r prev = Update (item :: prev)
                   /\ forall now, eligible P now item = false).
Proof.
  intros Ht dueStr. unfold addTask. fold dueStr. rewrite Ht. simpl. split.
  - intros ts now Hd Hp Htr Hrt Hle. rewrite Hd. unfold toISOString_of_string.
    rewrite Hp. simpl. eexists. split; [done|].
    unfold eligible, has_due, is_notified. simpl. rewrite Htr, Hrt. simpl.
    by apply Z.leb_le.
  - intros Hd. rewrite Hd. simpl. eexists. split; [done|]. intros now.
    unfold eligible, has_due. done.
Qed.

Lemma addTask_eligibility_witness :
  exists item, addTask utc_platform draft_good readings board = Update (item :: board)
               /\ eligible utc_platform after_T0 item = true.
Proof.
  destruct (addTask_eligibility utc_platform draft_good readings board) as [Hpast _];
    [reflexivity|].
  apply (Hpast T0 after_T0); try (vm_compute; reflexivity).
  unfold after_T0. lia.
Defined.

(** ** The gateway *)

(** X8. With the capability present, a permission already granted or
    denied is returned as it is and the platform is not asked again; only
    from [default] is it asked, once, and then the answer is returned and
    becomes the permission, a rejected request counting as [denied]. *)
Theorem ensureNotificationPermission_asks_once (w : Window) :
  Notification_in_window w = true ->
  (permission w <> Pdefault -> ensureNotificationPermission w = (permission w, w))
  /\ (permission w = Pdefault ->
      ensureNotificationPermission w
      = match requestPermission w with
        | Some p => (p, set_permission w p)
        | None => (Pdenied, w)
        end).
Proof.
  intros Hcap. unfold ensureNotificationPermission. rewrite Hcap. simpl.
  destruct (permission w) eqn:Hp; split; intros H; try done;
    repeat case_decide; try done.
Qed.

Lemma ensureNotificationPermission_asks_once_witness :
  ensureNotificationPermission denied_window = (Pdenied, denied_window)
  /\ ensureNotificationPermission (mkWindow true Pdefault (Some Pgranted) [] [])
     = (Pgranted, granted_window_asked).
Proof.
  split.
  - apply (proj1 (ensureNotificationPermission_asks_once denied_window eq_refl)).
    discriminate.
  - apply (proj2 (ensureNotificationPermission_asks_once
                    (mkWindow true Pdefault (Some Pgranted) [] []) eq_refl)).
    reflexivity.
Defined.

Lemma notifyTask_reminder (t : Task) (w : Window) :
  notifyTask t w
  = if negb (Notification_in_window w) then (false, w)
    else if decide (permission w <> Pgranted) then (false, w)
    else new_Notification (reminder t) w.
Proof. reflexivity. Qed.

Lemma notifyTask_sent (t : Task) (w : Window) :
  (notifyTask t w).1 = true <->
  Notification_in_window w = true /\ permission w = Pgranted
  /\ head (constructor_outcomes w) <> Some false.
Proof.
  rewrite notifyTask_reminder. unfold new_Notification.
  destruct (Notification_in_window w) eqn:Hc; simpl.
  - case_decide as Hp; simpl.
    + split; [done|]. intros (_ & Hg & _). done.
    + assert (permission w = Pgranted) as Hg by (by destruct (permission w)).
      destruct (constructor_outcomes w) as [|[] rest]; simpl; split; try done.
      intros (_ & _ & H). done.
  - split; [done|]. intros (? & _). done.
Qed.

Lemma notifyTask_shown (t : Task) (w : Window) :
  shown (notifyTask t w).2
  = if (notifyTask t w).1 then reminder t :: shown w else shown w.
Proof.
  rewrite notifyTask_reminder. unfold new_Notification.
  destruct (Notification_in_window w); simpl; [|done].
  case_decide; simpl; [done|].
  by destruct (constructor_outcomes w) as [|[] rest].
Qed.

Lemma notifyTask_keeps_permission (t : Task) (w : Window) :
  permission (notifyTask t w).2 = permission w
  /\ Notification_in_window (notifyTask t w).2 = Notification_in_window w.
Proof.
  rewrite notifyTask_reminder. unfold new_Notification.
  destruct (Notification_in_window w) eqn:Hc; simpl; [|done].
  case_decide; simpl; [done|].
  by destruct (constructor_outcomes w) as [|[] rest].
Qed.

(** X9. [notifyTask] succeeds exactly when the capability is there, the
    permission is [granted] and the constructor does not throw; then it
    shows one notification, the reminder of the task, tagged with its id,
    and otherwise none. It never changes the permission. *)
Theorem notifyTask_spec (t : Task) (w : Window) :
  let sent := (notifyTask t w).1 in
  let w' := (notifyTask t w).2 in
  (sent = true <->
   Notification_in_window w = true /\ permission w = Pgranted
   /\ head (constructor_outcomes w) <> Some false)
  /\ shown w' = (if sent then reminder t :: shown w else shown w)
  /\ n_tag (reminder t) = id t
  /\ permission w' = permission w
  /\ Notification_in_window w' = Notification_in_window w.
Proof.
  simpl. split; [apply notifyTask_sent|]. split; [apply notifyTask_shown|].
  split; [done|]. apply notifyTask_keeps_permission.
Qed.

(** X10. [requestNotif] raises no alert exactly when, afterwards, the
    capability is there and the permission is [granted]; a dispatch then
    fails only if the constructor throws. *)
Theorem requestNotif_quiet (w : Window) :
  let alerted := (requestNotif w).1 in
  let w' := (requestNotif w).2 in
  (alerted = false <-> Notification_in_window w' = true /\ permission w' = Pgranted)
  /\ (alerted = false ->
      forall t, (notifyTask t w').1 = true <-> head (constructor_outcomes w') <> Some false).
Proof.
  simpl.
  assert (Hiff : (requestNotif w).1 = false <->
                 Notification_in_window (requestNotif w).2 = true
                 /\ permission (requestNotif w).2 = Pgranted).
  { destruct w as [[] [] [[]|] outs sh]; cbn;
      (split; [try done | try done; try (intros [? ?]; done)]). }
  split; [done|]. intros Ha t.
  destruct (proj1 Hiff Ha) as [Hc Hg].
  rewrite notifyTask_sent. split; [intros (_ & _ & H); done | done].
Qed.

(** ** More on the tick *)

Lemma eligible_not_notified (P : Platform) (now : Z) (t : Task) :
  eligible P now t = true -> is_notified t = false.
Proof.
  unfold eligible. destruct (is_notified t); [|done].
  by rewrite andb_false_r.
Qed.

Lemma notified_by_tick_cons (t t' : Task) (prev next : list Task) :
  notified_by_tick (t :: prev) (t' :: next)
  = if negb (is_notified t) && is_notified t'
    then t :: notified_by_tick prev next else notified_by_tick prev next.
Proof.
  unfold notified_by_tick. simpl.
  by destruct (negb (is_notified t) && is_notified t').
Qed.

Lemma tick_map_shown (P : Platform) (now : Z) (prev : list Task) (w : Window) :
  let r := tick_map P now prev w in
  shown r.2 = (rev (map reminder (notified_by_tick prev r.1.1)) ++ shown w)%list
  /\ r.1.2 = negb (bool_decide (notified_by_tick prev r.1.1 = []))
  /\ Forall (fun t => eligible P now t = true) (notified_by_tick prev r.1.1).
Proof.
  simpl. revert w. induction prev as [|t rest IH]; intros w; [done|].
  rewrite tick_map_cons. simpl. rewrite notified_by_tick_cons, tick_task_eligible.
  destruct (eligible P now t) eqn:He; simpl.
  - pose proof (eligible_not_notified P now t He) as Hn.
    pose proof (notifyTask_shown t w) as Hs.
    destruct (IH (notifyTask t w).2) as (IH1 & IH2 & IH3).
    destruct (notifyTask t w).1; simpl.
    + rewrite Hn. simpl. rewrite IH1, Hs, <- app_assoc. simpl.
      split; [done|]. split; [done|]. by constructor.
    + rewrite Hn. simpl. by rewrite IH1, Hs, IH2.
  - destruct (IH w) as (IH1 & IH2 & IH3).
    replace (negb (is_notified t) && is_notified t) with false
      by (by destruct (is_notified t)).
    by rewrite IH1, IH2.
Qed.

(** X11. A tick shows exactly one notification for each task it marks
    notified, the reminder of that task, and shows no other; the tasks it
    marks were eligible; and it hands [prev] back exactly when it has shown
    nothing. *)
Theorem tick_shows_each_once (P : Platform) (now : Z) (prev : list Task) (w : Window) :
  let next := snapshot_after prev (tick P now prev w).1 in
  let w' := (tick P now prev w).2 in
  shown w' = (rev (map reminder (notified_by_tick prev next)) ++ shown w)%list
  /\ Forall (fun t => eligible P now t = true) (notified_by_tick prev next)
  /\ ((tick P now prev w).1 = NoUpdate <-> shown w' = shown w).
Proof.
  simpl. rewrite tick_snapshot.
  destruct (tick_map_shown P now prev w) as (Hs & Hc & He). simpl in *.
  unfold tick.
  destruct (tick_map P now prev w) as [[next changed] w'] eqn:E. simpl in *.
  split; [done|]. split; [done|].
  rewrite Hs, Hc.
  destruct (notified_by_tick prev next) as [|x l]; simpl.
  - done.
  - split; [done|]. intros H. apply (f_equal length) in H.
    rewrite !length_app in H. simpl in H. lia.
Qed.

(** X12. A task that is notified stays exactly as it is through every run
    of ticks, and in every state such a run reaches a further tick leaves
    the window exactly as a tick over the list without the task would: no
    second reminder is shown for it and no constructor is called for it. *)
Theorem notified_is_left_alone
        (P : Platform) (prev : list Task) (i : nat) (t : Task) :
  prev !! i = Some t -> is_notified t = true ->
  forall ticks : list (Z * Window),
    let l := run_ticks P ticks prev in
    l !! i = Some t
    /\ forall now w, (tick P now l w).2 = (tick P now (delete i l) w).2.
Proof.
  intros Hi Hn ticks l.
  assert (forall now, eligible P now t = false) as Hne.
  { intros now. unfold eligible. rewrite Hn. simpl. by rewrite andb_false_r. }
  assert (l !! i = Some t) as Hl by (by apply run_ticks_never_eligible).
  split; [done|]. intros now w. by apply (tick_window_skips P now l i t w Hl).
Qed.

Lemma notified_is_left_alone_witness :
  is_notified stale_task = true
  /\ forall ticks : list (Z * Window),
      let l := run_ticks utc_platform ticks [stale_task] in
      l !! 0%nat = Some stale_task
      /\ forall now w, (tick utc_platform now l w).2
                       = (tick utc_platform now (delete 0%nat l) w).2.
Proof.
  split; [reflexivity |].
  apply (notified_is_left_alone utc_platform [stale_task] 0 stale_task); reflexivity.
Defined.

Example notified_shows_nothing :
  shown (tick utc_platform after_T0 [stale_task] granted_window).2 = [].
Proof. reflexivity. Qed.

(** X13. When the dispatch for a position succeeds, the tick installs a new
    array, in which the task at that position is the old one with
    [notified] set. *)
Theorem successful_dispatch_marks
        (P : Platform) (now : Z) (prev : list Task) (w : Window) (i : nat) :
  dispatch_result P now prev w i = Some true ->
  exists t next,
    prev !! i = Some t
    /\ (tick P now prev w).1 = Update next
    /\ next !! i = Some (set_notified t)
    /\ is_notified t = false.
Proof.
  intros Hd. destruct (dispatch_result_Some _ _ _ _ _ _ Hd) as (t & Hi & He & Hn).
  pose proof (tick_lookup P now prev w i t Hi) as Hl.
  rewrite tick_task_eligible, He, Hn in Hl. simpl in Hl.
  pose proof (eligible_not_notified P now t He) as Hnn.
  exists t. unfold tick in *.
  pose proof (tick_map_unchanged P now prev w) as Hu.
  destruct (tick_map P now prev w) as [[next changed] w'] eqn:E. simpl in *.
  destruct changed; simpl in *.
  - exists next. done.
  - rewrite Hi in Hl. injection Hl as Hl. rewrite Hl in Hnn. done.
Qed.

Lemma successful_dispatch_marks_witness :
  exists t next,
    board !! 2%nat = Some t
    /\ (tick utc_platform after_T0 board granted_window).1 = Update next
    /\ next !! 2%nat = Some (set_notified t)
    /\ is_notified t = false.
Proof.
  apply (successful_dispatch_marks utc_platform after_T0 board granted_window 2).
  vm_compute. reflexivity.
Defined.

(** X14. The Overdue badge and the scheduler agree: a task shown Overdue
    that is not notified is eligible at the same clock reading, and an
    eligible task is pending and either shown Overdue or due at this very
    millisecond. *)
Theorem isOverdue_eligible (P : Platform) (now : Z) (t : Task) :
  (isOverdue P now t = true -> is_notified t = false -> eligible P now t = true)
  /\ (eligible P now t = true ->
      completed t = false
      /\ (isOverdue P now t = true \/ Date_parse P (default "" (due t)) = Some now)).
Proof.
  unfold isOverdue, eligible.
  destruct (has_due t); simpl; [|done].
  destruct (Date_parse P (default "" (due t))) as [ts|]; simpl;
    [|split; [done | by rewrite andb_false_r]].
  destruct (completed t), (is_notified t); simpl;
    rewrite ?andb_true_r, ?andb_false_r; (split; [try done | try done]).
  - intros H _. apply Z.ltb_lt in H. apply Z.leb_le. lia.
  - intros H%Z.leb_le. split; [done|].
    destruct (Z.eq_dec ts now) as [->|Hne]; [by right|].
    left. apply Z.ltb_lt. lia.
Qed.

(** ** More on the view *)

Section ViewFacts.
Context (P : Platform).

Lemma visible_perm (clock : Z) (tasks : list Task) (tab : Tab) (filter : Filter)
      (query : string) :
  visible P clock tasks tab filter query
  ≡ₚ List.filter (selects P clock tab filter query) tasks.
Proof. unfold visible. by rewrite Array_sort_perm, selected_filter. Qed.

Lemma visible_elem (clock : Z) (tasks : list Task) (tab : Tab) (filter : Filter)
      (query : string) (t : Task) :
  t ∈ visible P clock tasks tab filter query
  <-> t ∈ tasks /\ selects P clock tab filter query t = true.
Proof.
  rewrite visible_perm, !list_elem_of_In, filter_In. done.
Qed.

Lemma truthy_trimEnd (s : string) : Str.truthy (Str.trimEnd s) = nonblank s.
Proof.
  induction s as [|c r IH]; [done|]. simpl. rewrite <- IH.
  destruct (Str.trimEnd r); simpl; [|by rewrite orb_true_r].
  rewrite orb_false_r. by destruct (Str.is_whitespace c).
Qed.

Lemma nonblank_trimStart (s : string) : nonblank (Str.trimStart s) = nonblank s.
Proof.
  induction s as [|c r IH]; [done|]. simpl.
  destruct (Str.is_whitespace c) eqn:E; simpl; [done|]. by rewrite E.
Qed.

Lemma truthy_trim (s : string) : Str.truthy (Str.trim s) = nonblank s.
Proof. unfold Str.trim. by rewrite truthy_trimEnd, nonblank_trimStart. Qed.

Lemma is_whitespace_lower (c : ascii) :
  Str.is_whitespace (Str.lower_char c) = Str.is_whitespace c.
Proof. destruct c as [[] [] [] [] [] [] [] []]; reflexivity. Qed.

Lemma lower_char_idem (c : ascii) : Str.lower_char (Str.lower_char c) = Str.lower_char c.
Proof. destruct c as [[] [] [] [] [] [] [] []]; reflexivity. Qed.

Lemma nonblank_toLowerCase (s : string) : nonblank (Str.toLowerCase s) = nonblank s.
Proof.
  induction s as [|c r IH]; [done|]. simpl. by rewrite is_whitespace_lower, IH.
Qed.

Lemma toLowerCase_idem (s : string) :
  Str.toLowerCase (Str.toLowerCase s) = Str.toLowerCase s.
Proof.
  induction s as [|c r IH]; [done|]. simpl. by rewrite lower_char_idem, IH.
Qed.

End ViewFacts.

(** X15. Whatever the [due] strings are, [visible] neither invents nor
    loses a task: it is a rearrangement of the tasks of the input that pass
    the tab, the filter and the search, so it is never longer than the
    input. *)
Theorem visible_is_selection
        (P : Platform) (clock : Z) (tasks : list Task) (tab : Tab)
        (filter : Filter) (query : string) :
  let out := visible P clock tasks tab filter query in
  out ≡ₚ List.filter (selects P clock tab filter query) tasks
  /\ (forall t, t ∈ out <-> t ∈ tasks /\ selects P clock tab filter query t = true)
  /\ (length out <= length tasks)%nat.
Proof.
  simpl. split; [apply visible_perm|]. split; [apply visible_elem|].
  rewrite visible_perm. apply filter_length_le.
Qed.



(** X17. With the same filter and search, every task of the [today] tab is
    also on the [all] tab, at any clock reading. *)
Theorem visible_today_in_all
        (P : Platform) (clock clock' : Z) (tasks : list Task)
        (filter : Filter) (query : string) (t : Task) :
  t ∈ visible P clock tasks today filter query ->
  t ∈ visible P clock' tasks all filter query.
Proof.
  rewrite !visible_elem. intros [Ht Hs]. split; [done|].
  unfold selects in *. apply andb_true_iff in Hs as [Hs Hq].
  apply andb_true_iff in Hs as [_ Hf]. by rewrite Hf, Hq.
Qed.

Lemma visible_today_in_all_witness :
  due_task ∈ visible utc_platform next_day unsorted_board all pending "BILL".
Proof.
  apply (visible_today_in_all utc_platform after_T0 next_day unsorted_board
                              pending "BILL" due_task).
  vm_compute. apply list_elem_of_here.
Defined.

(** X18. The search ignores the case of the query: two queries with the
    same lower-case form give the same list, and so a query gives the list
    its lower-case form gives. *)
Theorem visible_ignores_query_case
        (P : Platform) (clock : Z) (tasks : list Task) (tab : Tab)
        (filter : Filter) (query query' : string) :
  (Str.toLowerCase query = Str.toLowerCase query' ->
   visible P clock tasks tab filter query = visible P clock tasks tab filter query')
  /\ visible P clock tasks tab filter query
     = visible P clock tasks tab filter (Str.toLowerCase query).
Proof.
  assert (forall q q', Str.toLowerCase q = Str.toLowerCase q' ->
                       visible P clock tasks tab filter q
                       = visible P clock tasks tab filter q') as H.
  { intros q q' Hq. unfold visible, selected.
    rewrite !truthy_trim, <- (nonblank_toLowerCase q), <- (nonblank_toLowerCase q'), Hq.
    done. }
  split; [apply H|]. apply H. by rewrite toLowerCase_idem.
Qed.

Lemma visible_ignores_query_case_witness :
  visible utc_platform after_T0 unsorted_board all pending "Pay Bill"
  = visible utc_platform after_T0 unsorted_board all pending "pAY bILL".
Proof.
  apply (proj1 (visible_ignores_query_case utc_platform after_T0 unsorted_board all
                                           pending "Pay Bill" "pAY bILL")).
  reflexivity.
Defined.

(** ** More on the store *)

(** X19. [loadTasks] does not look at what the array holds: from a slot
    whose text parses to an array it returns one object per element,
    whatever the elements are, and from text that parses to anything else
    it returns the empty list. *)
Theorem loadTasks_unvalidated (P : Platform) (ls : Storage) (raw : string) (j : json) :
  ls !! STORAGE_KEY = Some raw -> Str.truthy raw = true -> JSON_parse P raw = Some j ->
  (forall items, j = JArr items ->
     loadTasks P ls = map JS.spread_copy items
     /\ length (loadTasks P ls) = length items)
  /\ ((forall items, j <> JArr items) -> loadTasks P ls = []).
Proof.
  intros Hraw Ht Hp. unfold loadTasks. rewrite Hraw, Ht, Hp. simpl. split.
  - intros items ->. split; [done|]. apply length_map.
  - intros Hne. destruct j; try done. by destruct (Hne items).
Qed.

Lemma loadTasks_unvalidated_witness :
  loadTasks utc_platform number_store = [[]; []]
  /\ map task_of_object (loadTasks utc_platform number_store) = [None; None].
Proof.
  destruct (loadTasks_unvalidated utc_platform number_store "[1,null]"
                                  (JArr [JNum 1; JNull])) as [Harr _];
    [vm_compute; reflexivity | reflexivity | vm_compute; reflexivity |].
  destruct (Harr [JNum 1; JNull] eq_refl) as [-> _]. split; reflexivity.
Defined.

(** ** Runs of the application *)

Lemma tasks_commit (P : Platform) (st : AppState) (o : Outcome) :
  tasks (commit P st o) = snapshot_after (tasks st) o.
Proof. by destruct o. Qed.

Lemma handle_titles_nonempty (P : Platform) (a : Action) (prev : list Task) :
  titles_nonempty prev -> titles_nonempty (snapshot_after prev (handle P a prev)).
Proof.
  intros Hv. destruct a as [fd r|i|i|k f|c|now w]; simpl.
  - unfold addTask.
    destruct (Str.truthy (Str.trim (Str.of_nullable (fd_title fd)))) eqn:Ht; simpl; [|done].
    destruct (if Str.truthy (Str.trim (Str.of_nullable (fd_due fd)))
              then Some <$> toISOString_of_string P (Str.trim (Str.of_nullable (fd_due fd)))
              else Some None) as [d|]; simpl; [|done].
    by constructor.
  - apply Forall_map. eapply Forall_impl; [exact Hv|]. intros t Ht. simpl.
    by destruct (String.eqb (id t) i).
  - unfold titles_nonempty in *. rewrite Forall_forall in *. intros t Ht. apply Hv.
    apply list_elem_of_In. apply list_elem_of_In, filter_In in Ht. tauto.
  - destruct (prev !! k) as [t|] eqn:Hk; [|done].
    assert (Str.truthy (title t) = true) as Htt.
    { unfold titles_nonempty in Hv. rewrite Forall_lookup in Hv. by apply (Hv k). }
    unfold onSave, onSave_updates.
    destruct (e_due f) as [[ts|]|]; simpl; try done;
      (apply Forall_map; eapply Forall_impl; [exact Hv|]; intros t' Ht'; simpl;
       destruct (String.eqb (id t') (id t)); [|done]; simpl;
       unfold Str.or_else;
       by destruct (Str.truthy (Str.trim (e_title f))) eqn:E).
  - unfold resetAll. destruct c; [constructor | done].
  - rewrite tick_snapshot. revert w.
    induction prev as [|t rest IH]; intros w; [done|].
    inversion Hv as [|? ? Ht Hrest]; subst.
    rewrite tick_map_cons. simpl. constructor; [|by apply IH].
    rewrite tick_task_eligible.
    destruct (eligible P now t); [|done]. simpl.
    by destruct (notifyTask t w).1.
Qed.

(** X20. No sequence of adds, toggles, removals, edits, resets and ticks
    ever leaves a task with an empty title in a list that had none. *)
Theorem run_titles_nonempty (P : Platform) (actions : list Action) (st : AppState) :
  titles_nonempty (tasks st) -> titles_nonempty (tasks (run P actions st)).
Proof.
  revert st. induction actions as [|a rest IH]; intros st Hv; [done|].
  simpl. apply IH. unfold step. rewrite tasks_commit.
  by apply handle_titles_nonempty.
Qed.

Lemma run_titles_nonempty_witness :
  titles_nonempty
    (tasks (run utc_platform
                [AddTask draft_blank readings; AddTask draft_good readings;
                 Edit 0 {| e_title := "  "; e_notes := ""; e_due := None |};
                 Tick after_T0 granted_window; ToggleComplete (id due_task)]
                {| tasks := board; localStorage := ∅ |})).
Proof.
  apply (run_titles_nonempty utc_platform).
  repeat constructor.
Defined.

Section StoreInStep.
Context (P : Platform).
Hypothesis parse_empty : JSON_parse P EmptyString = None.
Hypothesis parse_stringify : forall tasks,
    JSON_parse P (stringify_tasks P tasks)
    = Some (JArr (map (fun t => JObj (object_of_task t)) tasks)).


Lemma commit_synced (st : AppState) (o : Outcome) :
  synced P st -> synced P (commit P st o).
Proof.
  intros Hs. destruct o; simpl; try done.
  unfold synced. simpl. by apply loadTasks_saveTasks_on.
Qed.

Lemma commit_other_keys (st : AppState) (o : Outcome) (k : string) :
  k <> STORAGE_KEY -> localStorage (commit P st o) !! k = localStorage st !! k.
Proof.
  intros Hk. destruct o; simpl; try done.
  unfold saveTasks. by rewrite lookup_insert_ne.
Qed.

Lemma run_synced (actions : list Action) (st : AppState) :
  synced P st -> synced P (run P actions st).
Proof.
  revert st. induction actions as [|a rest IH]; intros st Hs; [done|].
  simpl. apply IH. by apply commit_synced.
Qed.

Lemma run_other_keys (actions : list Action) (st : AppState) (k : string) :
  k <> STORAGE_KEY -> localStorage (run P actions st) !! k = localStorage st !! k.
Proof.
  intros Hk. revert st. induction actions as [|a rest IH]; intros st; [done|].
  simpl. rewrite IH. by apply commit_other_keys.
Qed.

End StoreInStep.




Section StoreUnderQuota.
Context (P : Platform) (quota : nat).
Hypothesis parse_empty : JSON_parse P EmptyString = None.
Hypothesis parse_stringify : forall tasks,
    JSON_parse P (stringify_tasks P tasks)
    = Some (JArr (map (fun t => JObj (object_of_task t)) tasks)).


End StoreUnderQuota.



(** With room for the first save only, adding a task leaves the store one
    state behind. *)
Example add_over_quota :
  let r := session utc_platform 600 board ∅ [AddTask draft_good readings] in
  r.2 = false
  /\ length (tasks r.1) = 4%nat
  /\ loadTasks utc_platform (localStorage r.1) = map object_of_task board.
Proof. repeat split; vm_compute; reflexivity. Qed.

(** ** Identifiers *)

Lemma pretty_N_go_has_no (c : ascii) (x : N) (s : string) :
  (forall d, pretty_N_char d <> c) ->
  has_char c s = false -> has_char c (pretty_N_go x s) = false.
Proof.
  intros Hc. revert s. induction (N.lt_wf_0 x) as [x _ IH]; intros s Hs.
  assert (x = 0 \/ 0 < x)%N as [->|Hx] by lia.
  - by rewrite pretty_N_go_0.
  - rewrite pretty_N_go_step by done. apply IH.
    + by apply N.div_lt.
    + simpl. rewrite Hs, orb_false_r.
      apply Ascii.eqb_neq. intros E. by apply (Hc (x `mod` 10)%N).
Qed.

Lemma pretty_N_char_not_underscore (d : N) : pretty_N_char d <> "_"%char.
Proof. unfold pretty_N_char. by repeat case_match. Qed.

Lemma pretty_Z_no_underscore (z : Z) : has_char "_" (pretty z) = false.
Proof.
  assert (forall p : positive, has_char "_" (pretty (N.pos p)) = false) as Hpos.
  { intros p. unfold pretty, pretty_N. case_decide; [done|].
    apply pretty_N_go_has_no; [apply pretty_N_char_not_underscore | done]. }
  destruct z as [|p|p]; [done | apply Hpos |].
  change (pretty (Z.neg p)) with ("-" +:+ pretty (N.pos p)).
  simpl. apply Hpos.
Qed.

Lemma split_at_char (c : ascii) (a b r r' : string) :
  has_char c a = false -> has_char c b = false ->
  (a ++ String c r)%string = (b ++ String c r')%string -> a = b /\ r = r'.
Proof.
  revert b. induction a as [|x a IH]; intros [|y b] Ha Hb E; simpl in *.
  - by injection E as ->.
  - injection E as <- _. by rewrite Ascii.eqb_refl in Hb.
  - injection E as -> _. by rewrite Ascii.eqb_refl in Ha.
  - injection E as -> E. apply orb_false_iff in Ha as [_ Ha], Hb as [_ Hb].
    destruct (IH b Ha Hb E) as [-> ->]. done.
Qed.

(** X22. [uid] separates its two readings: ids made at different
    milliseconds, or with different random suffixes, are different. *)
Theorem uid_inj (now now' : Z) (rnd rnd' : string) :
  now <> now' \/ rnd <> rnd' -> uid now rnd <> uid now' rnd'.
Proof.
  unfold uid. intros Hne E.
  destruct (split_at_char "_" (pretty now) (pretty now') rnd rnd') as [Hn Hr];
    [apply pretty_Z_no_underscore | apply pretty_Z_no_underscore | exact E |].
  apply (inj pretty) in Hn. destruct Hne; done.
Qed.

Lemma uid_inj_witness :
  uid 1700000000004 "dddddd" <> uid 1700000000004 "dddd_d"
  /\ uid 1700000000004 "4_dddd" <> uid 17000000000044 "dddd".
Proof.
  split.
  - apply (uid_inj 1700000000004 1700000000004 "dddddd" "dddd_d"). right. discriminate.
  - apply (uid_inj 1700000000004 17000000000044 "4_dddd" "dddd"). left. lia.
Defined.

(** ** The service worker *)

Section ServiceWorker.
Import SW.

Lemma fetch_all_Some (net : Network) (urls : list string) (l : list (string * Response)) :
  fetch_all net urls = Some l ->
  map fst l = urls
  /\ Forall (fun ur => net (GET ur.1) = Some ur.2 /\ storable ur.2 = true) l.
Proof.
  revert l. induction urls as [|u rest IH]; intros l H; simpl in H.
  - by injection H as <-.
  - destruct (net (GET u)) as [r|] eqn:Hn; [|done].
    destruct (storable r) eqn:Hok; [|done].
    destruct (fetch_all net rest) as [l'|]; [|done]. injection H as <-.
    destruct (IH l' eq_refl) as [Hm Hf]. simpl. split; [by rewrite Hm|].
    by constructor.
Qed.

Lemma fetch_all_iff (net : Network) (urls : list string) :
  is_Some (fetch_all net urls)
  <-> Forall (fun u => exists r, net (GET u) = Some r /\ storable r = true) urls.
Proof.
  induction urls as [|u rest IH]; simpl; [by split; [constructor | eexists]|].
  rewrite Forall_cons, <- IH.
  destruct (net (GET u)) as [r|]; [|split; [by intros [? ?] | by intros [(? & ? & ?) _]]].
  destruct (storable r) eqn:Hok.
  - destruct (fetch_all net rest) as [l'|].
    + split; [intros _; split; eauto | eauto].
    + split; [by intros [? ?] | by intros [_ [? ?]]].
  - split; [by intros [? ?] | intros [(r' & [= <-] & Hr) _]; congruence].
Qed.

Lemma put_all_other (l : list (string * Response)) (c : gmap string Response) (u : string) :
  u ∉ map fst l -> put_all l c !! u = c !! u.
Proof.
  revert c. induction l as [|[u0 r0] l IH]; intros c Hu; [done|].
  simpl in *. apply not_elem_of_cons in Hu as [Hne Hu].
  unfold put_all in *. simpl. rewrite IH by done. by rewrite lookup_insert_ne.
Qed.

Lemma put_all_fetched (net : Network) (l : list (string * Response))
      (c : gmap string Response) (u : string) :
  Forall (fun ur => net (GET ur.1) = Some ur.2 /\ storable ur.2 = true) l ->
  u ∈ map fst l -> put_all l c !! u = net (GET u).
Proof.
  revert c. induction l as [|[u0 r0] l IH]; intros c Hl Hu; [by apply elem_of_nil in Hu|].
  inversion Hl as [|? ? [Hn _] Hl']; subst. simpl in *.
  destruct (decide (u ∈ map fst l)) as [Hin|Hnin].
  - unfold put_all in *. simpl. by apply IH.
  - apply elem_of_cons in Hu as [->|Hu]; [|done].
    change (put_all ((u0, r0) :: l) c) with (put_all l (<[u0 := r0]> c)).
    by rewrite put_all_other, lookup_insert_eq.
Qed.

Lemma caches_match_open (name : string) (cs : CacheStorage) (req : Request) :
  caches_match (open name cs) req = caches_match cs req.
Proof.
  induction cs as [|[n c] rest IH]; simpl.
  - by destruct (String.eqb (method req) "GET").
  - destruct (String.eqb n name); simpl; [done|]. by rewrite IH.
Qed.

Lemma caches_match_installed (c : gmap string Response) (cs : CacheStorage)
      (u : string) (r : Response) :
  c !! u = Some r ->
  Forall (fun nc => nc.1 = CACHE \/ nc.2 !! u = None) cs ->
  caches_match (set_cache CACHE c (open CACHE cs)) (GET u) = Some r.
Proof.
  intros Hc H. induction cs as [|[n c0] rest IH]; simpl.
  - by rewrite Hc.
  - inversion H as [|? ? Hn Hrest]; subst. simpl in Hn.
    destruct (String.eqb n CACHE) eqn:E; simpl; rewrite E; simpl.
    + by rewrite Hc.
    + apply String.eqb_neq in E. destruct Hn as [?|Hn]; [done|].
      rewrite Hn. by apply IH.
Qed.

Lemma caches_match_none (cs : CacheStorage) (req : Request) :
  Forall (fun nc => nc.2 !! url req = None) cs -> caches_match cs req = None.
Proof.
  induction cs as [|[n c] rest IH]; intros H; [done|].
  inversion H as [|? ? Hn Hrest]; subst. simpl in *. rewrite Hn.
  destruct (String.eqb (method req) "GET"); [by apply IH | done].
Qed.

Lemma caches_match_without (c : gmap string Response) (cs : CacheStorage) (u : string) :
  Forall (fun nc => nc.2 !! u = None) cs -> c !! u = None ->
  caches_match (set_cache CACHE c (open CACHE cs)) (GET u) = None.
Proof.
  intros H Hc. induction cs as [|[n c0] rest IH]; simpl.
  - by rewrite Hc.
  - inversion H as [|? ? Hn Hrest]; subst. simpl in Hn.
    destruct (String.eqb n CACHE) eqn:E; simpl; rewrite E; simpl.
    + rewrite Hc. by apply (caches_match_none rest (GET u)).
    + rewrite Hn. by apply IH.
Qed.

Lemma get_cache_without (cs : CacheStorage) (u : string) :
  Forall (fun nc => nc.2 !! u = None) cs -> get_cache CACHE (open CACHE cs) !! u = None.
Proof.
  intros H. induction cs as [|[n c0] rest IH]; simpl.
  - done.
  - inversion H as [|? ? Hn Hrest]; subst. simpl in Hn.
    destruct (String.eqb n CACHE) eqn:E; simpl; rewrite E; [done|]. by apply IH.
Qed.

End ServiceWorker.

(** X23. After an install that succeeded, a GET of any of the three assets
    is answered with the response the network gave during the install,
    whatever the network does by then, also when it is down, provided no
    cache other than the worker's own holds that URL. *)
Theorem sw_install_serves_assets
        (net net' : SW.Network) (cs cs' : SW.CacheStorage) (u : string) :
  SW.install net cs = (true, cs') ->
  u ∈ SW.ASSETS ->
  Forall (fun nc => nc.1 = SW.CACHE \/ nc.2 !! u = None) cs ->
  SW.on_fetch cs' net' (SW.GET u) = net (SW.GET u)
  /\ exists r, net (SW.GET u) = Some r /\ SW.ok r = true.
Proof.
  intros Hi Hu Hcs. unfold SW.install in Hi.
  destruct (SW.fetch_all net SW.ASSETS) as [l|] eqn:Hf; [|done].
  injection Hi as <-.
  destruct (fetch_all_Some net SW.ASSETS l Hf) as [Hm Hl].
  assert (SW.put_all l (SW.get_cache SW.CACHE (SW.open SW.CACHE cs)) !! u
          = net (SW.GET u)) as Hput.
  { apply put_all_fetched; [done|]. by rewrite Hm. }
  assert (exists r, net (SW.GET u) = Some r /\ SW.ok r = true) as (r & Hr & Hok).
  { assert (SW.fetch_all net SW.ASSETS = Some l -> is_Some (SW.fetch_all net SW.ASSETS))
      as Hs by eauto.
    apply Hs, fetch_all_iff in Hf. rewrite Forall_forall in Hf.
    destruct (Hf u Hu) as (r & Hr & Hst). exists r. split; [done|].
    unfold SW.storable in Hst. by apply andb_true_iff in Hst as [? _]. }
  split; [|by exists r].
  unfold SW.on_fetch.
  rewrite (caches_match_installed _ cs u r); [by rewrite Hr | congruence | done].
Qed.

Lemma sw_install_serves_assets_witness :
  SW.on_fetch (SW.install good_network []).2 SW.offline (SW.GET "/index.html")
  = good_network (SW.GET "/index.html")
  /\ exists r, good_network (SW.GET "/index.html") = Some r /\ SW.ok r = true.
Proof.
  apply (sw_install_serves_assets good_network SW.offline [] (SW.install good_network []).2
                                  "/index.html").
  - reflexivity.
  - vm_compute. apply list_elem_of_further, list_elem_of_here.
  - constructor.
Defined.

(** X24. The install succeeds exactly when every asset is fetched with a
    response [cache.addAll] accepts, an [ok] status other than 206; when it
    fails nothing is stored: every request finds in the caches what it found
    before. *)
Theorem sw_install_all_or_nothing (net : SW.Network) (cs : SW.CacheStorage) :
  ((SW.install net cs).1 = true
   <-> Forall (fun u => exists r, net (SW.GET u) = Some r /\ SW.ok r = true
                                  /\ SW.status r <> 206%nat) SW.ASSETS)
  /\ ((SW.install net cs).1 = false ->
      forall req, SW.caches_match (SW.install net cs).2 req = SW.caches_match cs req).
Proof.
  pose proof (fetch_all_iff net SW.ASSETS) as Hiff.
  assert (Forall (fun u => exists r, net (SW.GET u) = Some r /\ SW.storable r = true)
                 SW.ASSETS
          <-> Forall (fun u => exists r, net (SW.GET u) = Some r /\ SW.ok r = true
                                         /\ SW.status r <> 206%nat) SW.ASSETS) as Hst.
  { apply Forall_iff. intros u. unfold SW.storable.
    split; intros (r & Hr & H); exists r; (split; [done|]).
    - apply andb_true_iff in H as [Hok Hn]. split; [done|].
      by apply negb_true_iff, Nat.eqb_neq in Hn.
    - destruct H as [Hok Hn]. apply andb_true_iff. split; [done|].
      by apply negb_true_iff, Nat.eqb_neq. }
  rewrite <- Hst. unfold SW.install.
  destruct (SW.fetch_all net SW.ASSETS) as [l|]; simpl.
  - split; [|done]. split; [intros _; apply Hiff; eauto | done].
  - split.
    + split; [done|]. intros H. apply Hiff in H. by destruct H.
    + intros _ req. apply caches_match_open.
Qed.

Example sw_partial_content_install :
  (SW.install partial_network []).1 = false.
Proof. reflexivity. Qed.

(** X25. The worker caches the three assets and nothing else: a request
    that is not a GET always goes to the network, and so does a GET of a
    URL outside the asset list that no cache held before the install, so
    that offline it fails. *)
Theorem sw_only_assets_cached
        (net net' : SW.Network) (cs : SW.CacheStorage) (req : SW.Request) :
  (SW.method req <> "GET" -> SW.on_fetch cs net' req = net' req)
  /\ (forall u, u ∉ SW.ASSETS -> Forall (fun nc => nc.2 !! u = None) cs ->
        SW.on_fetch (SW.install net cs).2 net' (SW.GET u) = net' (SW.GET u)
        /\ SW.on_fetch (SW.install net cs).2 SW.offline (SW.GET u) = None).
Proof.
  split.
  - intros Hm. unfold SW.on_fetch.
    replace (SW.caches_match cs req) with (@None SW.Response); [done|].
    apply String.eqb_neq in Hm. destruct cs as [|[n c] rest]; simpl; [done|].
    by rewrite Hm.
  - intros u Hu Hcs.
    assert (SW.caches_match (SW.install net cs).2 (SW.GET u) = None) as Hnone.
    { unfold SW.install.
      destruct (SW.fetch_all net SW.ASSETS) as [l|] eqn:Hf; simpl.
      - apply caches_match_without; [done|].
        destruct (fetch_all_Some net SW.ASSETS l Hf) as [Hm _].
        rewrite put_all_other by (by rewrite Hm).
        by apply get_cache_without.
      - rewrite caches_match_open. by apply caches_match_none. }
    unfold SW.on_fetch. by rewrite Hnone.
Qed.

Lemma sw_only_assets_cached_witness :
  SW.on_fetch (SW.install good_network []).2 good_network (SW.GET "/assets/index.js")
  = good_network (SW.GET "/assets/index.js")
  /\ SW.on_fetch (SW.install good_network []).2 SW.offline (SW.GET "/assets/index.js") = None.
Proof.
  apply (sw_only_assets_cached good_network good_network []
                               (SW.GET "/assets/index.js")).
  - vm_compute. intros H. repeat (apply elem_of_cons in H as [H|H]; [discriminate H|]).
    by apply elem_of_nil in H.
  - constructor.
Defined.

Example sw_broken_install :
  (SW.install broken_network []).1 = false
  /\ SW.on_fetch (SW.install broken_network []).2 SW.offline (SW.GET "/") = None.
Proof. split; vm_compute; reflexivity. Qed.
